(** * Inverted pendulum on a cart: PID control demo

    A shallow embedding of the simulation core of the pendulum widget
    (physics engine, PID controller, RK4 integrator, animation loop and
    button/slider handlers).

    JavaScript numbers are read as real numbers, with exact arithmetic:
    [Math.sin], [Math.cos], [Math.abs], [Math.max], [Math.min] and
    [Math.PI] are the functions and the constant of the real line
    ([sin], [cos], [Rabs], [Rmax], [Rmin], [PI]), and decimal literals
    denote the rationals they spell.  Rounding, infinities and NaN are
    outside this model; where they decide a property, the function is
    embedded a second time over binary64 floating-point numbers, in
    module [B64].
    The mutable globals of the script ([state], [gains], [initialTheta],
    [isRunning], [animationId], [controlInput]) are the fields of one
    record that every handler takes and returns. *)

From Stdlib Require Import Floats.
From Stdlib Require Import Reals Lra Lia ZArith List Bool String.
Import ListNotations.

Open Scope R_scope.

(** ** Data *)

(** [PARAMS]: the physical constants. *)
Record Params : Type := mkParams {
  M : R;         (* cart mass *)
  m : R;         (* pendulum mass *)
  l : R;         (* pendulum length *)
  g : R;         (* gravity *)
  dt : R;        (* time step *)
  friction : R   (* cart friction coefficient *)
}.

Definition PARAMS : Params :=
  {| M := 1.0; m := 0.1; l := 0.5; g := 9.81; dt := 0.01; friction := 0.1 |}.

(** The four fields that [computeDerivatives] reads; the intermediate
    objects [state2], [state3], [state4] of [rk4Step] carry only these. *)
Record Mech : Type := mkMech {
  x : R;
  xDot : R;
  theta : R;
  thetaDot : R
}.

(** [state]: the mechanical fields together with [integral] and [time]. *)
Record State : Type := mkState {
  mech :> Mech;
  integral : R;
  time : R
}.

(** The object returned by [computeDerivatives]; two of its fields share
    their names with fields of the state, hence the module. *)
Module D.
Record Derivatives : Type := mk {
  xDot : R;
  xDDot : R;
  thetaDot : R;
  thetaDDot : R
}.
End D.

(** [gains] *)
Record Gains : Type := mkGains {
  Kp : R;
  Ki : R;
  Kd : R
}.

(** ** Physics engine *)

(** [computeDerivatives(state, u)] *)
Definition computeDerivatives (P : Params) (state : Mech) (u : R) : D.Derivatives :=
  let sinTheta := sin (theta state) in
  let cosTheta := cos (theta state) in
  let denom := M P + m P - m P * cosTheta * cosTheta in
  let xDDot :=
    (u - friction P * xDot state
       + m P * l P * thetaDot state * thetaDot state * sinTheta
       - m P * g P * sinTheta * cosTheta) / denom in
  let thetaDDot :=
    ((M P + m P) * g P * sinTheta
       - cosTheta * (u - friction P * xDot state
                       + m P * l P * thetaDot state * thetaDot state * sinTheta))
    / (l P * denom) in
  {| D.xDot := xDot state;
     D.xDDot := xDDot;
     D.thetaDot := thetaDot state;
     D.thetaDDot := thetaDDot |}.

(** [computeControl(state)], reading the global [gains]. *)
Definition computeControl (G : Gains) (state : State) : R :=
  let u := Kp G * theta state + Ki G * integral state + Kd G * thetaDot state in
  Rmax (-50) (Rmin 50 u).

(** [rk4Step(state, u, dt)] *)
Definition rk4Step (P : Params) (state : State) (u : R) (dt : R) : State :=
  let k1 := computeDerivatives P state u in
  let state2 :=
    {| x := x state + D.xDot k1 * dt / 2;
       xDot := xDot state + D.xDDot k1 * dt / 2;
       theta := theta state + D.thetaDot k1 * dt / 2;
       thetaDot := thetaDot state + D.thetaDDot k1 * dt / 2 |} in
  let k2 := computeDerivatives P state2 u in
  let state3 :=
    {| x := x state + D.xDot k2 * dt / 2;
       xDot := xDot state + D.xDDot k2 * dt / 2;
       theta := theta state + D.thetaDot k2 * dt / 2;
       thetaDot := thetaDot state + D.thetaDDot k2 * dt / 2 |} in
  let k3 := computeDerivatives P state3 u in
  let state4 :=
    {| x := x state + D.xDot k3 * dt;
       xDot := xDot state + D.xDDot k3 * dt;
       theta := theta state + D.thetaDot k3 * dt;
       thetaDot := thetaDot state + D.thetaDDot k3 * dt |} in
  let k4 := computeDerivatives P state4 u in
  {| mech :=
       {| x := x state
               + (D.xDot k1 + 2 * D.xDot k2 + 2 * D.xDot k3 + D.xDot k4) * dt / 6;
          xDot := xDot state
               + (D.xDDot k1 + 2 * D.xDDot k2 + 2 * D.xDDot k3 + D.xDDot k4) * dt / 6;
          theta := theta state
               + (D.thetaDot k1 + 2 * D.thetaDot k2 + 2 * D.thetaDot k3
                  + D.thetaDot k4) * dt / 6;
          thetaDot := thetaDot state
               + (D.thetaDDot k1 + 2 * D.thetaDDot k2 + 2 * D.thetaDDot k3
                  + D.thetaDDot k4) * dt / 6 |};
     integral := integral state + theta state * dt;
     time := time state + dt |}.

(** ** Animation loop and event handlers *)

(** [Math.sign] *)
Definition sign (v : R) : R :=
  if Rlt_dec 0 v then 1 else if Rlt_dec v 0 then -1 else 0.

(** The globals of the script, the two pieces of the page the handlers
    write ([startBtn]: the text of the start button; [display]: the last
    arguments of [render] and [updateStateDisplay]) and the host's queue
    of animation frame requests.  Every queued callback is [simulate]. *)
Record Driver : Type := mkDriver {
  state : State;
  gains : Gains;
  initialTheta : R;
  isRunning : bool;
  animationId : option nat;
  controlInput : R;
  startBtn : string;
  display : option (State * R);
  frames : list nat;
  nextHandle : nat
}.

Definition set_state (d : Driver) (s : State) : Driver :=
  mkDriver s (gains d) (initialTheta d) (isRunning d) (animationId d)
           (controlInput d) (startBtn d) (display d) (frames d) (nextHandle d).

Definition set_gains (d : Driver) (G : Gains) : Driver :=
  mkDriver (state d) G (initialTheta d) (isRunning d) (animationId d)
           (controlInput d) (startBtn d) (display d) (frames d) (nextHandle d).

Definition set_initialTheta (d : Driver) (a : R) : Driver :=
  mkDriver (state d) (gains d) a (isRunning d) (animationId d)
           (controlInput d) (startBtn d) (display d) (frames d) (nextHandle d).

Definition set_isRunning (d : Driver) (b : bool) : Driver :=
  mkDriver (state d) (gains d) (initialTheta d) b (animationId d)
           (controlInput d) (startBtn d) (display d) (frames d) (nextHandle d).

Definition set_controlInput (d : Driver) (u : R) : Driver :=
  mkDriver (state d) (gains d) (initialTheta d) (isRunning d) (animationId d)
           u (startBtn d) (display d) (frames d) (nextHandle d).

Definition set_startBtn (d : Driver) (t : string) : Driver :=
  mkDriver (state d) (gains d) (initialTheta d) (isRunning d) (animationId d)
           (controlInput d) t (display d) (frames d) (nextHandle d).

Definition set_frames (d : Driver) (q : list nat) : Driver :=
  mkDriver (state d) (gains d) (initialTheta d) (isRunning d) (animationId d)
           (controlInput d) (startBtn d) (display d) q (nextHandle d).

(** [render(s, u); updateStateDisplay(s, u)] *)
Definition show (d : Driver) (s : State) (u : R) : Driver :=
  mkDriver (state d) (gains d) (initialTheta d) (isRunning d) (animationId d)
           (controlInput d) (startBtn d) (Some (s, u)) (frames d) (nextHandle d).

(** [animationId = requestAnimationFrame(simulate)] *)
Definition requestAnimationFrame (d : Driver) : Driver :=
  let h := nextHandle d in
  mkDriver (state d) (gains d) (initialTheta d) (isRunning d) (Some h)
           (controlInput d) (startBtn d) (display d) (frames d ++ [h]) (S h).

(** [if (animationId) cancelAnimationFrame(animationId)]: [null] and [0]
    are falsy. *)
Definition cancelAnimationFrame (d : Driver) : Driver :=
  match animationId d with
  | Some h =>
      if Nat.eqb h 0 then d
      else set_frames d (filter (fun k => negb (Nat.eqb k h)) (frames d))
  | None => d
  end.

Definition stepsPerFrame : nat := 2.

(** One pass of the loop body of [simulate]. *)
Definition substep (d : Driver) : Driver :=
  let d1 := set_controlInput d (computeControl (gains d) (state d)) in
  set_state d1 (rk4Step PARAMS (state d1) (controlInput d1) (dt PARAMS)).

(** The [for] loop of [simulate]. *)
Definition physics (d : Driver) : Driver := Nat.iter stepsPerFrame substep d.

(** "Bound cart position" *)
Definition boundCart (s : State) : State :=
  if Rgt_dec (Rabs (x s)) 2.5
  then {| mech := {| x := sign (x s) * 2.5; xDot := 0;
                     theta := theta s; thetaDot := thetaDot s |};
          integral := integral s; time := time s |}
  else s.

(** "Check for fallen pendulum" *)
Definition checkFallen (d : Driver) : Driver :=
  if Rgt_dec (Rabs (theta (state d))) (PI / 2)
  then set_startBtn (set_isRunning d false) "Start"
  else d.

(** The last [if] of [simulate]. *)
Definition reschedule (d : Driver) : Driver :=
  if isRunning d then requestAnimationFrame d else d.

(** [simulate] after its loop: clamp, fall check, display, reschedule. *)
Definition finishTick (d : Driver) : Driver :=
  let d1 := set_state d (boundCart (state d)) in
  let d2 := checkFallen d1 in
  let d3 := show d2 (state d2) (controlInput d2) in
  reschedule d3.

(** [simulate(timestamp)] *)
Definition simulate (d : Driver) : Driver :=
  if negb (isRunning d) then d else finishTick (physics d).

(** [resetState()] *)
Definition resetState (d : Driver) : Driver :=
  let s := {| mech := {| x := 0; xDot := 0; theta := initialTheta d; thetaDot := 0 |};
              integral := 0; time := 0 |} in
  let d1 := set_controlInput (set_state d s) 0 in
  show d1 (state d1) 0.

(** What the user and the host can do to the page. *)
Inductive Event : Type :=
| KpInput (v : R)
| KiInput (v : R)
| KdInput (v : R)
| Theta0Input (deg : R)
| StartClick
| ResetClick
| Frame.

Definition onKpInput (v : R) (d : Driver) : Driver :=
  set_gains d {| Kp := v; Ki := Ki (gains d); Kd := Kd (gains d) |}.

Definition onKiInput (v : R) (d : Driver) : Driver :=
  set_gains d {| Kp := Kp (gains d); Ki := v; Kd := Kd (gains d) |}.

Definition onKdInput (v : R) (d : Driver) : Driver :=
  set_gains d {| Kp := Kp (gains d); Ki := Ki (gains d); Kd := v |}.

Definition onTheta0Input (deg : R) (d : Driver) : Driver :=
  let d1 := set_initialTheta d (deg * PI / 180) in
  if negb (isRunning d1)
  then
    let s := state d1 in
    let d2 := set_state d1
                {| mech := {| x := x s; xDot := xDot s;
                              theta := initialTheta d1; thetaDot := thetaDot s |};
                   integral := integral s; time := time s |} in
    show d2 (state d2) 0
  else d1.

Definition onStartClick (d : Driver) : Driver :=
  if isRunning d
  then set_startBtn (cancelAnimationFrame (set_isRunning d false)) "Start"
  else requestAnimationFrame (set_startBtn (set_isRunning d true) "Pause").

Definition onResetClick (d : Driver) : Driver :=
  resetState (set_startBtn (cancelAnimationFrame (set_isRunning d false)) "Start").

(** The host runs the oldest pending frame request. *)
Definition onFrame (d : Driver) : Driver :=
  match frames d with
  | [] => d
  | _ :: q => simulate (set_frames d q)
  end.

Definition handle (e : Event) (d : Driver) : Driver :=
  match e with
  | KpInput v => onKpInput v d
  | KiInput v => onKiInput v d
  | KdInput v => onKdInput v d
  | Theta0Input deg => onTheta0Input deg d
  | StartClick => onStartClick d
  | ResetClick => onResetClick d
  | Frame => onFrame d
  end.

Definition run (evs : list Event) (d : Driver) : Driver :=
  fold_left (fun acc e => handle e acc) evs d.

(** The page once the script has run: the initial values of the globals,
    then [init()]. *)
Definition boot : Driver :=
  resetState
    {| state := {| mech := {| x := 0; xDot := 0; theta := 0; thetaDot := 0 |};
                   integral := 0; time := 0 |};
       gains := {| Kp := 50; Ki := 0; Kd := 20 |};
       initialTheta := 10 * PI / 180;
       isRunning := false;
       animationId := None;
       controlInput := 0;
       startBtn := "Start";
       display := None;
       frames := [];
       nextHandle := 1 |}.

(** ** The algorithms in the words of the specification

    Second definitions, written from the specification's description and
    compared below with the functions of the script. *)
Module Spec.

(** Hard saturation to the range [[lo, hi]]. *)
Definition clamp (v lo hi : R) : R :=
  if Rlt_dec v lo then lo else if Rlt_dec hi v then hi else v.

(** The equations of motion: the two accelerations. *)
Definition xDDot (P : Params) (xDot theta thetaDot u : R) : R :=
  let s := sin theta in
  let c := cos theta in
  let denom := M P + m P - m P * c ^ 2 in
  (u - friction P * xDot + m P * l P * thetaDot ^ 2 * s - m P * g P * s * c) / denom.

Definition thetaDDot (P : Params) (xDot theta thetaDot u : R) : R :=
  let s := sin theta in
  let c := cos theta in
  let denom := M P + m P - m P * c ^ 2 in
  ((M P + m P) * g P * s
     - c * (u - friction P * xDot + m P * l P * thetaDot ^ 2 * s)) / (l P * denom).

(** Vectors [(x, xDot, theta, thetaDot)] of the mechanical state. *)
Definition vadd (a b : Mech) : Mech :=
  {| x := x a + x b; xDot := xDot a + xDot b;
     theta := theta a + theta b; thetaDot := thetaDot a + thetaDot b |}.

Definition vscale (c : R) (a : Mech) : Mech :=
  {| x := c * x a; xDot := c * xDot a;
     theta := c * theta a; thetaDot := c * thetaDot a |}.

(** Classical four-stage Runge-Kutta step of size [h] for [y' = f y]. *)
Definition rk4 (f : Mech -> Mech) (y : Mech) (h : R) : Mech :=
  let k1 := f y in
  let k2 := f (vadd y (vscale (h / 2) k1)) in
  let k3 := f (vadd y (vscale (h / 2) k2)) in
  let k4 := f (vadd y (vscale h k3)) in
  vadd y (vscale (h / 6)
            (vadd (vadd (vadd (vscale 1 k1) (vscale 2 k2)) (vscale 2 k3))
                  (vscale 1 k4))).

End Spec.

(** The right-hand side of the equations of motion as a vector field on
    the mechanical state, the force [u] being held fixed. *)
Definition eom_field (P : Params) (u : R) (y : Mech) : Mech :=
  let k := computeDerivatives P y u in
  {| x := D.xDot k; xDot := D.xDDot k; theta := D.thetaDot k; thetaDot := D.thetaDDot k |}.

(** One pass of the controller-then-integrator loop on the state alone,
    the gains being held fixed: what [substep] does to [state]. *)
Definition controlStep (G : Gains) (s : State) : State :=
  rk4Step PARAMS s (computeControl G s) (dt PARAMS).

(** ** Scenarios *)

(** Events other than the two buttons: slider inputs and frames. *)
Definition quiet (e : Event) : bool :=
  match e with
  | StartClick | ResetClick => false
  | _ => true
  end.

(** Frames and the three gain sliders: the events that write no field
    of [state] while the loop is stopped. *)
Definition frame_or_gain (e : Event) : bool :=
  match e with
  | KpInput _ | KiInput _ | KdInput _ | Frame => true
  | _ => false
  end.

(** [state] with [theta] overwritten, the assignment
    [state.theta = initialTheta] of the initial-angle slider. *)
Definition with_theta (s : State) (a : R) : State :=
  {| mech := {| x := x s; xDot := xDot s; theta := a; thetaDot := thetaDot s |};
     integral := integral s; time := time s |}.

(** The angle a stopped page holds after the events [evs], starting from
    the angle [a]: the last initial-angle slider input, in radians, or
    [a] when there is none. *)
Definition angle_after (evs : list Event) (a : R) : R :=
  fold_left (fun acc e =>
               match e with
               | Theta0Input deg => deg * PI / 180
               | _ => acc
               end) evs a.

(** A driver at both thresholds at once. *)
Definition on_both_thresholds : Driver :=
  {| state := {| mech := {| x := 2.5; xDot := 1; theta := PI / 2; thetaDot := 1 |};
                 integral := 0; time := 1 |};
     gains := {| Kp := 50; Ki := 0; Kd := 20 |};
     initialTheta := 10 * PI / 180;
     isRunning := true;
     animationId := Some 1%nat;
     controlInput := 0;
     startBtn := "Pause";
     display := None;
     frames := [];
     nextHandle := 2 |}.

(** The pendulum hanging straight down with all gains at zero, the run
    just started: what the page is after the three sliders are moved and
    the start button is clicked. *)
Definition hanging : Driver :=
  run [KpInput 0; KdInput 0; Theta0Input 180; StartClick] boot.


(** ** Enclosures

    To follow a trajectory of the real-valued model by computation, every
    number is enclosed between two integers scaled by [2^64]: the
    interval [Some (lo, hi)] stands for the reals [r] with
    [lo <= r * 2^64 <= hi], and [None] for no information.  Each
    operation rounds its lower end down and its upper end up. *)
Module Ivl.

Definition prec : Z := 64.

Definition scale : Z := Eval vm_compute in (2 ^ 64)%Z.

Definition t : Type := option (Z * Z).

Definition contains (i : t) (r : R) : Prop :=
  match i with
  | Some (lo, hi) => IZR lo <= r * IZR scale <= IZR hi
  | None => True
  end.

(** Division rounded up. *)
Definition cdiv (a b : Z) : Z := (- ((- a) / b))%Z.

(** Division by [scale], rounded down and rounded up. *)
Definition floor_scale (a : Z) : Z := Z.shiftr a prec.

Definition ceil_scale (a : Z) : Z := (- Z.shiftr (- a) prec)%Z.

Definition of_Z (n : Z) : t := Some ((n * scale)%Z, (n * scale)%Z).

Definition of_Q (n d : Z) : t :=
  if (0 <? d)%Z then Some ((n * scale / d)%Z, cdiv (n * scale) d) else None.

Definition add (a b : t) : t :=
  match a, b with
  | Some (al, ah), Some (bl, bh) => Some ((al + bl)%Z, (ah + bh)%Z)
  | _, _ => None
  end.

Definition neg (a : t) : t :=
  match a with
  | Some (al, ah) => Some ((- ah)%Z, (- al)%Z)
  | None => None
  end.

Definition sub (a b : t) : t := add a (neg b).

Definition mul (a b : t) : t :=
  match a, b with
  | Some (al, ah), Some (bl, bh) =>
      let p1 := (al * bl)%Z in
      let p2 := (al * bh)%Z in
      let p3 := (ah * bl)%Z in
      let p4 := (ah * bh)%Z in
      Some (floor_scale (Z.min (Z.min p1 p2) (Z.min p3 p4)),
            ceil_scale (Z.max (Z.max p1 p2) (Z.max p3 p4)))
  | _, _ => None
  end.

(** Division by a positive integer. *)
Definition divz (a : t) (c : Z) : t :=
  match a with
  | Some (al, ah) => if (0 <? c)%Z then Some ((al / c)%Z, cdiv ah c) else None
  | None => None
  end.

(** Inverse of a positive interval. *)
Definition inv (a : t) : t :=
  match a with
  | Some (al, ah) =>
      if (0 <? al)%Z
      then Some ((scale * scale / ah)%Z, cdiv (scale * scale) al)
      else None
  | None => None
  end.

Definition div (a b : t) : t := mul a (inv b).

Definition max (a b : t) : t :=
  match a, b with
  | Some (al, ah), Some (bl, bh) => Some (Z.max al bl, Z.max ah bh)
  | _, _ => None
  end.

Definition min (a b : t) : t :=
  match a, b with
  | Some (al, ah), Some (bl, bh) => Some (Z.min al bl, Z.min ah bh)
  | _, _ => None
  end.

(** The interval spanned by [0] and [a]. *)
Definition hull0 (a : t) : t :=
  match a with
  | Some (al, ah) => Some (Z.min 0 al, Z.max 0 ah)
  | None => None
  end.

(** The alternating sum [t_0 - t_1 + t_2 - ... ] of [n] terms followed
    by a last one taken anywhere between [0] and its value, where
    [t_0 = term] and [t_(j+1) = t_j * a2 / ((k+2j+1) * (k+2j+2))]:
    an enclosure of two consecutive partial sums of the sine series
    ([term = a], [k = 1]) or the cosine series ([term = 1], [k = 0]) at
    [a] with [a2 = a * a]. *)
Fixpoint alt_sum (a2 term : t) (k : Z) (n : nat) : t :=
  match n with
  | O => hull0 term
  | S n' =>
      sub term (alt_sum a2 (divz (mul term a2) ((k + 1) * (k + 2))) (k + 2)%Z n')
  end.

Definition unit_ball : t := Some ((- scale)%Z, scale).

Definition sin_pos (N : nat) (a : t) : t :=
  alt_sum (mul a a) a 1 (2 * (N + 1)).

Definition cos_pos (N : nat) (a : t) : t :=
  alt_sum (mul a a) (of_Z 1) 0 (2 * (N + 1)).

(** Sine and cosine from their series on [[-2, 2]], with [2 * (N + 1)]
    terms after the first. *)
Definition sin (N : nat) (a : t) : t :=
  match a with
  | Some (al, ah) =>
      if (0 <=? al)%Z && (ah <=? 2 * scale)%Z then sin_pos N a
      else if (ah <=? 0)%Z && (- 2 * scale <=? al)%Z then neg (sin_pos N (neg a))
      else unit_ball
  | None => unit_ball
  end.

Definition cos (N : nat) (a : t) : t :=
  match a with
  | Some (al, ah) =>
      if (0 <=? al)%Z && (ah <=? 2 * scale)%Z then cos_pos N a
      else if (ah <=? 0)%Z && (- 2 * scale <=? al)%Z then cos_pos N (neg a)
      else unit_ball
  | None => unit_ball
  end.

(** [- n / d < a < n / d], decided on the ends. *)
Definition within (a : t) (n d : Z) : bool :=
  match a with
  | Some (al, ah) => (- n * scale <? d * al)%Z && (d * ah <? n * scale)%Z
  | None => false
  end.

(** An enclosure of [PI / 2], between a point where the cosine series is
    positive and one where it is negative. *)
Definition half_pi_lo : Z := 28976077832308491113.

Definition half_pi_hi : Z := 28976077832308491625.

Definition half_pi : t := Some (half_pi_lo, half_pi_hi).

Definition half_pi_checked : bool :=
  match cos 6 (Some (half_pi_lo, half_pi_lo)), cos 6 (Some (half_pi_hi, half_pi_hi)) with
  | Some (l, _), Some (_, h) =>
      (0 <? l)%Z && (h <? 0)%Z && (0 <=? half_pi_lo)%Z && (half_pi_hi <=? 2 * scale)%Z
  | _, _ => false
  end.

Definition pi : t := mul (of_Z 2) half_pi.

End Ivl.

(** The real-valued sum that [Ivl.alt_sum] encloses; [h] in [[0, 1]]
    weighs the last term. *)
Fixpoint alt_sumR (h a2 term : R) (k : Z) (n : nat) : R :=
  match n with
  | O => h * term
  | S n' =>
      term - alt_sumR h a2 (term * a2 / IZR ((k + 1) * (k + 2))) (k + 2)%Z n'
  end.

(** The simulation core on enclosures: the same programs, every real
    operation replaced by its interval counterpart. *)
Module Box.

Record Params : Type := mkParams {
  M : Ivl.t; m : Ivl.t; l : Ivl.t; g : Ivl.t; dt : Ivl.t; friction : Ivl.t
}.

Record Mech : Type := mkMech {
  x : Ivl.t; xDot : Ivl.t; theta : Ivl.t; thetaDot : Ivl.t
}.

Record State : Type := mkState {
  mech :> Mech; integral : Ivl.t; time : Ivl.t
}.

Record Derivatives : Type := mkDerivatives {
  dxDot : Ivl.t; dxDDot : Ivl.t; dthetaDot : Ivl.t; dthetaDDot : Ivl.t
}.

Record Gains : Type := mkGains {
  Kp : Ivl.t; Ki : Ivl.t; Kd : Ivl.t
}.

Definition PARAMS : Params :=
  {| M := Ivl.of_Q 10 10; m := Ivl.of_Q 1 10; l := Ivl.of_Q 5 10;
     g := Ivl.of_Q 981 100; dt := Ivl.of_Q 1 100; friction := Ivl.of_Q 1 10 |}.

(** Number of pairs of series terms used for [sin] and [cos]. *)
Definition order : nat := 3.

Definition computeDerivatives (P : Params) (state : Mech) (u : Ivl.t) : Derivatives :=
  let sinTheta := Ivl.sin order (theta state) in
  let cosTheta := Ivl.cos order (theta state) in
  let denom :=
    Ivl.sub (Ivl.add (M P) (m P)) (Ivl.mul (Ivl.mul (m P) cosTheta) cosTheta) in
  let pull :=
    Ivl.add (Ivl.sub u (Ivl.mul (friction P) (xDot state)))
            (Ivl.mul (Ivl.mul (Ivl.mul (Ivl.mul (m P) (l P)) (thetaDot state))
                              (thetaDot state)) sinTheta) in
  let xDDot :=
    Ivl.div (Ivl.sub pull (Ivl.mul (Ivl.mul (Ivl.mul (m P) (g P)) sinTheta) cosTheta))
            denom in
  let thetaDDot :=
    Ivl.div (Ivl.sub (Ivl.mul (Ivl.mul (Ivl.add (M P) (m P)) (g P)) sinTheta)
                     (Ivl.mul cosTheta pull))
            (Ivl.mul (l P) denom) in
  {| dxDot := xDot state; dxDDot := xDDot;
     dthetaDot := thetaDot state; dthetaDDot := thetaDDot |}.

Definition computeControl (G : Gains) (state : State) : Ivl.t :=
  let u := Ivl.add (Ivl.add (Ivl.mul (Kp G) (theta state))
                            (Ivl.mul (Ki G) (integral state)))
                   (Ivl.mul (Kd G) (thetaDot state)) in
  Ivl.max (Ivl.of_Z (-50)) (Ivl.min (Ivl.of_Z 50) u).

(** [y + k * dt / 2], [y + k * dt] and
    [y + (k1 + 2*k2 + 2*k3 + k4) * dt / 6]. *)
Definition half_advance (y k dt : Ivl.t) : Ivl.t :=
  Ivl.add y (Ivl.divz (Ivl.mul k dt) 2).

Definition full_advance (y k dt : Ivl.t) : Ivl.t :=
  Ivl.add y (Ivl.mul k dt).

Definition combine (y k1 k2 k3 k4 dt : Ivl.t) : Ivl.t :=
  Ivl.add y
    (Ivl.divz
       (Ivl.mul (Ivl.add (Ivl.add (Ivl.add k1 (Ivl.mul (Ivl.of_Z 2) k2))
                                  (Ivl.mul (Ivl.of_Z 2) k3)) k4) dt) 6).

Definition rk4Step (P : Params) (state : State) (u : Ivl.t) (dt : Ivl.t) : State :=
  let k1 := computeDerivatives P state u in
  let state2 :=
    {| x := half_advance (x state) (dxDot k1) dt;
       xDot := half_advance (xDot state) (dxDDot k1) dt;
       theta := half_advance (theta state) (dthetaDot k1) dt;
       thetaDot := half_advance (thetaDot state) (dthetaDDot k1) dt |} in
  let k2 := computeDerivatives P state2 u in
  let state3 :=
    {| x := half_advance (x state) (dxDot k2) dt;
       xDot := half_advance (xDot state) (dxDDot k2) dt;
       theta := half_advance (theta state) (dthetaDot k2) dt;
       thetaDot := half_advance (thetaDot state) (dthetaDDot k2) dt |} in
  let k3 := computeDerivatives P state3 u in
  let state4 :=
    {| x := full_advance (x state) (dxDot k3) dt;
       xDot := full_advance (xDot state) (dxDDot k3) dt;
       theta := full_advance (theta state) (dthetaDot k3) dt;
       thetaDot := full_advance (thetaDot state) (dthetaDDot k3) dt |} in
  let k4 := computeDerivatives P state4 u in
  {| mech :=
       {| x := combine (x state) (dxDot k1) (dxDot k2) (dxDot k3) (dxDot k4) dt;
          xDot := combine (xDot state) (dxDDot k1) (dxDDot k2) (dxDDot k3)
                          (dxDDot k4) dt;
          theta := combine (theta state) (dthetaDot k1) (dthetaDot k2)
                           (dthetaDot k3) (dthetaDot k4) dt;
          thetaDot := combine (thetaDot state) (dthetaDDot k1) (dthetaDDot k2)
                              (dthetaDDot k3) (dthetaDDot k4) dt |};
     integral := Ivl.add (integral state) (Ivl.mul (theta state) dt);
     time := Ivl.add (time state) dt |}.

Definition controlStep (G : Gains) (s : State) : State :=
  rk4Step PARAMS s (computeControl G s) (dt PARAMS).

(** The pendulum is up ([|theta| < 3/2 < PI/2]) and the cart is inside
    the track ([|x| < 5/2]). *)
Definition ok (s : State) : bool :=
  Ivl.within (theta s) 3 2 && Ivl.within (x s) 5 2.

(** [ok] now and after each of the next [n] steps. *)
Fixpoint safe (G : Gains) (n : nat) (s : State) : bool :=
  ok s && match n with
          | O => true
          | S n' => safe G n' (controlStep G s)
          end.

(** The default gains and the state after [init()]. *)
Definition gains0 : Gains :=
  {| Kp := Ivl.of_Z 50; Ki := Ivl.of_Z 0; Kd := Ivl.of_Z 20 |}.

Definition state0 : State :=
  {| mech := {| x := Ivl.of_Z 0; xDot := Ivl.of_Z 0;
                theta := Ivl.divz (Ivl.mul (Ivl.of_Z 10) Ivl.pi) 180;
                thetaDot := Ivl.of_Z 0 |};
     integral := Ivl.of_Z 0; time := Ivl.of_Z 0 |}.

End Box.

(** What it means for a box to enclose a value. *)
Definition encloses_params (B : Box.Params) (P : Params) : Prop :=
  Ivl.contains (Box.M B) (M P) /\ Ivl.contains (Box.m B) (m P) /\
  Ivl.contains (Box.l B) (l P) /\ Ivl.contains (Box.g B) (g P) /\
  Ivl.contains (Box.dt B) (dt P) /\ Ivl.contains (Box.friction B) (friction P).

Definition encloses_mech (B : Box.Mech) (y : Mech) : Prop :=
  Ivl.contains (Box.x B) (x y) /\ Ivl.contains (Box.xDot B) (xDot y) /\
  Ivl.contains (Box.theta B) (theta y) /\ Ivl.contains (Box.thetaDot B) (thetaDot y).

Definition encloses_state (B : Box.State) (s : State) : Prop :=
  encloses_mech (Box.mech B) (mech s) /\
  Ivl.contains (Box.integral B) (integral s) /\ Ivl.contains (Box.time B) (time s).

Definition encloses_derivatives (B : Box.Derivatives) (k : D.Derivatives) : Prop :=
  Ivl.contains (Box.dxDot B) (D.xDot k) /\ Ivl.contains (Box.dxDDot B) (D.xDDot k) /\
  Ivl.contains (Box.dthetaDot B) (D.thetaDot k) /\
  Ivl.contains (Box.dthetaDDot B) (D.thetaDDot k).

Definition encloses_gains (B : Box.Gains) (G : Gains) : Prop :=
  Ivl.contains (Box.Kp B) (Kp G) /\ Ivl.contains (Box.Ki B) (Ki G) /\
  Ivl.contains (Box.Kd B) (Kd G).

(** The scenario of the stable run: default gains, ten degrees. *)
Definition gains0 : Gains := {| Kp := 50; Ki := 0; Kd := 20 |}.

Definition state0 : State :=
  {| mech := {| x := 0; xDot := 0; theta := 10 * PI / 180; thetaDot := 0 |};
     integral := 0; time := 0 |}.

(** ** Rendering

    The canvas is written to through its 2D context; [render] is
    modelled by the list of the context operations it performs, in
    order.  Assignments to [fillStyle], [strokeStyle] and [lineWidth]
    are operations of that list. *)
Inductive Cmd : Type :=
| FillStyle (color : string)
| StrokeStyle (color : string)
| LineWidth (w : R)
| SetLineDash (segments : list R)
| FillRect (left top w h : R)
| BeginPath
| ClosePath
| MoveTo (px py : R)
| LineTo (px py : R)
| Arc (cx cy radius startAngle endAngle : R)
| Stroke
| Fill.

Definition SCALE : R := 100.

Definition CART_WIDTH : R := 80.

Definition CART_HEIGHT : R := 40.

Definition WHEEL_RADIUS : R := 10.

Definition PENDULUM_LENGTH : R := l PARAMS * SCALE.

Definition BOB_RADIUS : R := 15.

(** The locals [cartX], [cartY], [pivotX], [pivotY], [bobX], [bobY] and
    [forceLength] of [render]. *)
Definition cartX (width : R) (state : State) : R := width / 2 + x state * SCALE.

Definition cartY (height : R) : R := height - 30 - WHEEL_RADIUS - CART_HEIGHT / 2.

Definition pivotX (width : R) (state : State) : R := cartX width state.

Definition pivotY (height : R) : R := cartY height - CART_HEIGHT / 2.

Definition bobX (width : R) (state : State) : R :=
  pivotX width state + PENDULUM_LENGTH * sin (theta state).

Definition bobY (height : R) (state : State) : R :=
  pivotY height - PENDULUM_LENGTH * cos (theta state).

Definition forceScale : R := 2.

Definition forceLength (u : R) : R := u * forceScale.

(** "Draw control force indicator" *)
Definition drawForce (width height : R) (state : State) (u : R) : list Cmd :=
  if Rgt_dec (Rabs (forceLength u)) 1
  then
    let arrowDir := if Rgt_dec (forceLength u) 0 then 1 else -1 in
    [ StrokeStyle "#48bb78"; LineWidth 3; BeginPath;
      MoveTo (cartX width state) (cartY height);
      LineTo (cartX width state + forceLength u) (cartY height);
      Stroke;
      BeginPath;
      MoveTo (cartX width state + forceLength u) (cartY height);
      LineTo (cartX width state + forceLength u - 8 * arrowDir) (cartY height - 5);
      LineTo (cartX width state + forceLength u - 8 * arrowDir) (cartY height + 5);
      ClosePath;
      FillStyle "#48bb78"; Fill ]
  else [].

(** [render(state, u)] on a canvas of the given size. *)
Definition render (width height : R) (state : State) (u : R) : list Cmd :=
  [ FillStyle "#ffffff"; FillRect 0 0 width height;
    StrokeStyle "#e2e8f0"; LineWidth 2; BeginPath;
    MoveTo 0 (height - 30); LineTo width (height - 30); Stroke;
    StrokeStyle "#cbd5e0"; SetLineDash [5; 5]; BeginPath;
    MoveTo 0 (height - 30 - WHEEL_RADIUS); LineTo width (height - 30 - WHEEL_RADIUS);
    Stroke; SetLineDash [];
    FillStyle "#1a365d";
    FillRect (cartX width state - CART_WIDTH / 2) (cartY height - CART_HEIGHT / 2)
             CART_WIDTH CART_HEIGHT;
    FillStyle "#333333"; BeginPath;
    Arc (cartX width state - CART_WIDTH / 3) (cartY height + CART_HEIGHT / 2)
        WHEEL_RADIUS 0 (PI * 2);
    Fill; BeginPath;
    Arc (cartX width state + CART_WIDTH / 3) (cartY height + CART_HEIGHT / 2)
        WHEEL_RADIUS 0 (PI * 2);
    Fill;
    StrokeStyle "#2c5282"; LineWidth 4; BeginPath;
    MoveTo (pivotX width state) (pivotY height);
    LineTo (bobX width state) (bobY height state);
    Stroke;
    FillStyle "#718096"; BeginPath;
    Arc (pivotX width state) (pivotY height) 6 0 (PI * 2); Fill;
    FillStyle "#c53030"; BeginPath;
    Arc (bobX width state) (bobY height state) BOB_RADIUS 0 (PI * 2); Fill ]
  ++ drawForce width height state u
  ++ [ StrokeStyle "#a0aec0"; LineWidth 1; SetLineDash [3; 3]; BeginPath;
       MoveTo (pivotX width state) (pivotY height);
       LineTo (pivotX width state) (pivotY height - PENDULUM_LENGTH - 10);
       Stroke; SetLineDash [] ].


(** ** Symmetries of the state *)

(** The state seen in a mirror: left and right exchanged. *)
Definition mirrorMech (y : Mech) : Mech :=
  {| x := - x y; xDot := - xDot y; theta := - theta y; thetaDot := - thetaDot y |}.

Definition mirror (s : State) : State :=
  {| mech := mirrorMech s; integral := - integral s; time := time s |}.

(** The state with the cart moved by [c] along the track. *)
Definition shift (c : R) (s : State) : State :=
  {| mech := {| x := x s + c; xDot := xDot s; theta := theta s;
                thetaDot := thetaDot s |};
     integral := integral s; time := time s |}.

(** ** Well-formed drivers *)

(** The animation loop is scheduled exactly while the driver runs: one
    pending frame request, the one [animationId] names, or none. *)
Definition scheduled_once (d : Driver) : Prop :=
  (1 <= nextHandle d)%nat /\
  if isRunning d
  then exists h : nat,
         frames d = [h] /\ animationId d = Some h /\ (1 <= h < nextHandle d)%nat
  else frames d = [].

(** The start button reads "Pause" exactly while the driver runs. *)
Definition label_agrees (d : Driver) : Prop :=
  startBtn d = if isRunning d then "Pause"%string else "Start"%string.

(** The page shows the current state, with a force the actuator can
    deliver. *)
Definition shows_current (d : Driver) : Prop :=
  exists u : R, display d = Some (state d, u) /\ -50 <= u <= 50.

(** The total mechanical energy of cart and pendulum. *)
Definition energy (P : Params) (y : Mech) : R :=
  (M P + m P) * xDot y * xDot y / 2
  + m P * l P * xDot y * thetaDot y * cos (theta y)
  + m P * l P * l P * thetaDot y * thetaDot y / 2
  + m P * g P * l P * cos (theta y).

(** A motion with constant accelerations: from [y0], velocity and
    angular velocity change at the constant rates [D.xDDot k] and
    [D.thetaDDot k], the angle at the rate [thetaDot y0]. *)
Definition steady (y0 : Mech) (k : D.Derivatives) (tau : R) : Mech :=
  {| x := x y0 + xDot y0 * tau;
     xDot := xDot y0 + D.xDDot k * tau;
     theta := theta y0 + thetaDot y0 * tau;
     thetaDot := thetaDot y0 + D.thetaDDot k * tau |}.

(** A cart moving at 1 with the pendulum leaning by 1 and turning at
    rate 2. *)
Definition moving : Mech := {| x := 0; xDot := 1; theta := 1; thetaDot := 2 |}.

(** Events that are neither a gain slider nor the initial-angle
    slider. *)
Definition not_a_slider (e : Event) : bool :=
  match e with
  | StartClick | ResetClick | Frame => true
  | _ => false
  end.

(** What every state of the page satisfies (see below): the loop is
    scheduled exactly while running, the cart is on the track, the force
    last applied is one the actuator can deliver, and the page shows the
    current state. *)
Definition well_formed (d : Driver) : Prop :=
  scheduled_once d /\
  Rabs (x (state d)) <= 2.5 /\
  -50 <= controlInput d <= 50 /\
  shows_current d.


(** ** The controller over binary64

    [computeControl] once more, with JavaScript numbers as the IEEE 754
    binary64 values they are: products and sums round to nearest, may
    overflow to an infinity, and an undefined sum is NaN. *)

Module B64.

Record Gains : Type := mkGains {
  Kp : float;
  Ki : float;
  Kd : float
}.

Record State : Type := mkState {
  x : float;
  xDot : float;
  theta : float;
  thetaDot : float;
  integral : float;
  time : float
}.

Definition is_neg_zero (a : float) : bool := is_zero a && get_sign a.

Definition is_pos_zero (a : float) : bool := is_zero a && negb (get_sign a).

(** [Math.min(a, b)]: NaN when either argument is NaN; [-0] counts as
    smaller than [+0]. *)
Definition min (a b : float) : float :=
  if is_nan a || is_nan b then nan
  else if (a <? b)%float then a
  else if (b <? a)%float then b
  else if is_neg_zero a then a else b.

(** [Math.max(a, b)]: NaN when either argument is NaN; [+0] counts as
    larger than [-0]. *)
Definition max (a b : float) : float :=
  if is_nan a || is_nan b then nan
  else if (a <? b)%float then b
  else if (b <? a)%float then a
  else if is_pos_zero a then a else b.

(** [computeControl(state)], reading the global [gains]. *)
Definition computeControl (gains : Gains) (state : State) : float :=
  let u := (Kp gains * theta state + Ki gains * integral state
            + Kd gains * thetaDot state)%float in
  max (-50)%float (min 50%float u).

(** Gains of [1e308] on the angle and on its rate, none on the integral:
    finite numbers, as [parseFloat] returns them. *)
Definition huge_gains : Gains :=
  {| Kp := 0x1.1ccf385ebc8ap+1023; Ki := 0; Kd := 0x1.1ccf385ebc8ap+1023 |}.

(** A state leaning by 10 and swinging back at rate 10. *)
Definition swinging_back : State :=
  {| x := 0; xDot := 0; theta := 10; thetaDot := -10; integral := 0; time := 0 |}.

(** The default gains and a small lean. *)
Definition default_gains : Gains := {| Kp := 50; Ki := 0; Kd := 20 |}.

Definition leaning (a w : float) : State :=
  {| x := 0; xDot := 0; theta := a; thetaDot := w; integral := 0; time := 0 |}.

End B64.

(** * Properties *)

(** ** Equations of motion *)

(** C2: for every state and force, [computeDerivatives] returns the two
    first derivatives unchanged and the two accelerations of the
    specification's formulas (with [s = sin theta], [c = cos theta],
    [denom = M + m - m*c^2]). *)
Theorem computeDerivatives_formulas :
  forall (P : Params) (st : Mech) (u : R),
    let k := computeDerivatives P st u in
    D.xDot k = xDot st /\
    D.thetaDot k = thetaDot st /\
    D.xDDot k = Spec.xDDot P (xDot st) (theta st) (thetaDot st) u /\
    D.thetaDDot k = Spec.thetaDDot P (xDot st) (theta st) (thetaDot st) u.
Proof.
  intros P st u k. subst k.
  unfold computeDerivatives, Spec.xDDot, Spec.thetaDDot; cbn [D.xDot D.xDDot D.thetaDot D.thetaDDot].
  repeat split.
  - f_equal; ring.
  - f_equal; ring.
Qed.

(** The denominator of both accelerations is at least the cart mass. *)
Lemma denom_lower_bound :
  forall (P : Params) (a : R),
    0 <= m P -> M P <= M P + m P - m P * cos a * cos a.
Proof.
  intros P a Hm.
  pose proof (COS_bound a) as [Hlo Hhi].
  assert (Hsq : cos a * cos a <= 1) by nra.
  nra.
Qed.

(** C7: with positive masses the denominator [M + m - m*cos(theta)^2] is
    non-zero at every angle (it is at least [M]), and with a positive
    length so is [l * denom]: neither division of [computeDerivatives]
    is a division by zero, and its two quotients, multiplied back by
    their denominators, give the numerators. *)
Theorem denom_nonzero :
  forall (P : Params) (st : Mech) (u : R),
    0 < M P -> 0 < m P -> 0 < l P ->
    let s := sin (theta st) in
    let c := cos (theta st) in
    let denom := M P + m P - m P * c * c in
    let k := computeDerivatives P st u in
    denom = M P + m P - m P * c ^ 2 /\
    M P <= denom /\
    denom <> 0 /\
    l P * denom <> 0 /\
    D.xDDot k * denom
    = u - friction P * xDot st + m P * l P * thetaDot st * thetaDot st * s
      - m P * g P * s * c /\
    D.thetaDDot k * (l P * denom)
    = (M P + m P) * g P * s
      - c * (u - friction P * xDot st + m P * l P * thetaDot st * thetaDot st * s).
Proof.
  intros P st u HM Hm Hl s c denom k.
  assert (Hd : M P <= denom) by (apply denom_lower_bound; lra).
  assert (Hd0 : denom <> 0) by lra.
  assert (Hl0 : l P <> 0) by lra.
  split; [unfold denom; ring|]. split; [exact Hd|]. split; [exact Hd0|].
  split; [apply Rmult_integral_contrapositive_currified; assumption|].
  unfold k, computeDerivatives; cbn [D.xDDot D.thetaDDot].
  fold s c denom.
  split; field; try split; solve [exact Hd0 | exact Hl0].
Qed.

Lemma denom_nonzero_witness :
  let st := {| x := 0; xDot := 0; theta := 1; thetaDot := 0 |} in
  0 < M PARAMS /\ 0 < m PARAMS /\ 0 < l PARAMS /\
  M PARAMS + m PARAMS - m PARAMS * cos (theta st) * cos (theta st) <> 0 /\
  l PARAMS * (M PARAMS + m PARAMS - m PARAMS * cos (theta st) * cos (theta st)) <> 0.
Proof.
  intros st.
  assert (HM : 0 < M PARAMS) by (simpl; lra).
  assert (Hm : 0 < m PARAMS) by (simpl; lra).
  assert (Hl : 0 < l PARAMS) by (simpl; lra).
  pose proof (denom_nonzero PARAMS st 0 HM Hm Hl) as (_ & _ & H1 & H2 & _).
  split; [exact HM|]. split; [exact Hm|]. split; [exact Hl|].
  split; [exact H1 | exact H2].
Defined.

(** At the upright angle with the pendulum at rest and no force, what is
    left of the two accelerations is the friction term. *)
Lemma computeDerivatives_upright :
  forall (P : Params) (st : Mech),
    theta st = 0 -> thetaDot st = 0 ->
    D.xDDot (computeDerivatives P st 0)
      = - (friction P * xDot st) / (M P + m P - m P) /\
    D.thetaDDot (computeDerivatives P st 0)
      = friction P * xDot st / (l P * (M P + m P - m P)).
Proof.
  intros P st Ht Hw.
  unfold computeDerivatives; cbn [D.xDDot D.thetaDDot].
  rewrite Ht, Hw, sin_0, cos_0.
  split; f_equal; ring.
Qed.

(** C6, as the specification states it, fails when the cart is moving:
    with [xDot = 1] the friction term leaves [xDDot = -0.1]. *)
Lemma upright_moving_cart_not_fixed :
  let st := {| x := 0; xDot := 1; theta := 0; thetaDot := 0 |} in
  theta st = 0 /\ thetaDot st = 0 /\
  D.xDDot (computeDerivatives PARAMS st 0) = -0.1 /\
  D.thetaDDot (computeDerivatives PARAMS st 0) = 0.2 /\
  ~ (D.xDDot (computeDerivatives PARAMS st 0) = 0 /\
     D.thetaDDot (computeDerivatives PARAMS st 0) = 0).
Proof.
  intros st.
  destruct (computeDerivatives_upright PARAMS st eq_refl eq_refl) as [Hx Ht].
  rewrite Hx, Ht. simpl.
  repeat split; try lra.
Qed.

(** C6 (amended): for every state with [theta = 0], [thetaDot = 0] and
    the cart at rest ([xDot = 0]), and force [u = 0], the evaluator
    returns [xDDot = 0] and [thetaDDot = 0]. *)
Theorem upright_rest_fixed_point :
  forall (P : Params) (st : Mech),
    theta st = 0 -> thetaDot st = 0 -> xDot st = 0 ->
    let k := computeDerivatives P st 0 in
    D.xDot k = 0 /\ D.thetaDot k = 0 /\ D.xDDot k = 0 /\ D.thetaDDot k = 0.
Proof.
  intros P st Ht Hw Hv k. subst k.
  destruct (computeDerivatives_upright P st Ht Hw) as [Hx Ha].
  rewrite Hx, Ha, Hv. cbn [computeDerivatives D.xDot D.thetaDot].
  rewrite Hv, Hw. unfold Rdiv.
  repeat split; ring.
Qed.

Lemma upright_rest_fixed_point_witness :
  let st := {| x := 2; xDot := 0; theta := 0; thetaDot := 0 |} in
  D.xDDot (computeDerivatives PARAMS st 0) = 0 /\
  D.thetaDDot (computeDerivatives PARAMS st 0) = 0.
Proof.
  intros st.
  pose proof (upright_rest_fixed_point PARAMS st eq_refl eq_refl eq_refl) as H.
  split; apply H.
Defined.

(** ** Controller *)

Lemma clamp_max_min :
  forall v : R, Rmax (-50) (Rmin 50 v) = Spec.clamp v (-50) 50.
Proof.
  intros v. unfold Spec.clamp, Rmax, Rmin.
  repeat (destruct Rle_dec); repeat (destruct Rlt_dec); lra.
Qed.

(** *** Order of binary64 numbers *)

Lemma SFcompare_antisym :
  forall a b : spec_float,
    SFcompare b a = option_map CompOpp (SFcompare a b).
Proof.
  intros [sa| sa | |sa ma ea] [sb|sb| |sb mb eb]; cbn; try reflexivity;
    try (destruct sa; reflexivity); try (destruct sb; reflexivity);
    try (destruct sa, sb; reflexivity).
  destruct sa, sb; try reflexivity.
  - rewrite (Z.compare_antisym ea eb). destruct (ea ?= eb)%Z; cbn; try reflexivity.
    rewrite Pos.compare_cont_antisym. cbn. rewrite ?CompOpp_involutive. reflexivity.
  - rewrite (Z.compare_antisym ea eb). destruct (ea ?= eb)%Z; cbn; try reflexivity.
    rewrite Pos.compare_cont_antisym. cbn. rewrite ?CompOpp_involutive. reflexivity.
Qed.

Lemma SFcompare_defined :
  forall a b : spec_float,
    SFcompare a a <> None -> SFcompare b b <> None -> SFcompare a b <> None.
Proof.
  intros [sa| sa | |sa ma ea] [sb|sb| |sb mb eb]; cbn; congruence.
Qed.

Lemma is_nan_compare :
  forall a : float, is_nan a = false -> SFcompare (Prim2SF a) (Prim2SF a) <> None.
Proof.
  intros a H. unfold is_nan in H. rewrite FloatAxioms.eqb_spec in H.
  unfold SFeqb in H.
  destruct (SFcompare (Prim2SF a) (Prim2SF a)); [congruence|discriminate].
Qed.

Lemma ltb_not_leb :
  forall a b : float, (a <? b)%float = true -> (b <=? a)%float = false.
Proof.
  intros a b. rewrite FloatAxioms.ltb_spec, FloatAxioms.leb_spec.
  unfold SFltb, SFleb.
  rewrite (SFcompare_antisym (Prim2SF a) (Prim2SF b)).
  destruct (SFcompare _ _) as [[| |]|]; cbn; congruence.
Qed.

Lemma ltb_asym :
  forall a b : float, (a <? b)%float = true -> (b <? a)%float = false.
Proof.
  intros a b. rewrite !FloatAxioms.ltb_spec. unfold SFltb.
  rewrite (SFcompare_antisym (Prim2SF a) (Prim2SF b)).
  destruct (SFcompare _ _) as [[| |]|]; cbn; congruence.
Qed.

Lemma not_ltb_leb :
  forall a b : float,
    is_nan a = false -> is_nan b = false ->
    (a <? b)%float = false -> (b <=? a)%float = true.
Proof.
  intros a b Ha Hb. rewrite FloatAxioms.ltb_spec, FloatAxioms.leb_spec.
  unfold SFltb, SFleb.
  pose proof (SFcompare_defined _ _ (is_nan_compare a Ha) (is_nan_compare b Hb)) as Hd.
  rewrite (SFcompare_antisym (Prim2SF a) (Prim2SF b)).
  destruct (SFcompare _ _) as [[| |]|]; cbn; congruence.
Qed.

Lemma below_low_not_above_high :
  forall a : float, (a <? -50)%float = true -> (50 <? a)%float = false.
Proof.
  intros a. rewrite !FloatAxioms.ltb_spec. unfold SFltb.
  change (Prim2SF (-50)) with (S754_finite true 7036874417766400 (-47)).
  change (Prim2SF 50) with (S754_finite false 7036874417766400 (-47)).
  destruct (Prim2SF a) as [[|]|[|]| |[|] m e]; cbv [SFcompare]; congruence.
Qed.

Lemma min_nan : forall v : float, is_nan v = true -> B64.min 50 v = nan.
Proof.
  intros v H. unfold B64.min. rewrite H, orb_true_r. reflexivity.
Qed.

Lemma min_high :
  forall v : float,
    is_nan v = false ->
    B64.min 50 v = if (50 <? v)%float then 50%float else v.
Proof.
  intros v H. unfold B64.min. rewrite H.
  change (is_nan 50) with false. cbn [orb].
  destruct (50 <? v)%float; [reflexivity|].
  destruct (v <? 50)%float; [reflexivity|].
  change (B64.is_neg_zero 50) with false. reflexivity.
Qed.

Lemma max_low :
  forall v : float,
    is_nan v = false ->
    B64.max (-50) v = if (v <? -50)%float then (-50)%float else v.
Proof.
  intros v H. unfold B64.max. rewrite H.
  change (is_nan (-50)) with false. cbn [orb].
  destruct (-50 <? v)%float eqn:E.
  - rewrite (ltb_asym _ _ E). reflexivity.
  - destruct (v <? -50)%float; [reflexivity|].
    change (B64.is_pos_zero (-50)) with false. reflexivity.
Qed.

(** C3, as the specification states it ("always within [[-50, 50]] for
    any finite input"), fails in binary64: with gains [1e308] on the
    angle and on its rate, angle
    10 and rate -10 (all six inputs finite) the two products overflow to
    opposite infinities, their sum is NaN, [Math.min] and [Math.max]
    pass NaN on, and the controller returns NaN, which is neither at
    least -50 nor at most 50. *)
Lemma computeControl_overflow_nan :
  is_finite (B64.Kp B64.huge_gains) = true /\
  is_finite (B64.Ki B64.huge_gains) = true /\
  is_finite (B64.Kd B64.huge_gains) = true /\
  is_finite (B64.theta B64.swinging_back) = true /\
  is_finite (B64.integral B64.swinging_back) = true /\
  is_finite (B64.thetaDot B64.swinging_back) = true /\
  is_nan (B64.computeControl B64.huge_gains B64.swinging_back) = true /\
  (-50 <=? B64.computeControl B64.huge_gains B64.swinging_back)%float = false /\
  (B64.computeControl B64.huge_gains B64.swinging_back <=? 50)%float = false.
Proof.
  vm_compute. repeat split; reflexivity.
Qed.

(** C3 (amended): in binary64, for every state and every gain triple,
    the controller returns the clamp of the PID expression
    [Kp*theta + Ki*integral + Kd*thetaDot] to [[-50, 50]] whenever that
    expression is a number: the output then lies in [[-50, 50]], is the
    expression itself when it lies in the range, 50 when it is above 50
    and -50 when it is below -50.  When the expression is NaN, which
    finite inputs can produce by overflow, the output is NaN.  The
    output is a function of the gains and of [theta], [integral] and
    [thetaDot], and of nothing else. *)
Theorem computeControl_binary64 :
  forall (G : B64.Gains) (st : B64.State),
    let pid := (B64.Kp G * B64.theta st + B64.Ki G * B64.integral st
                + B64.Kd G * B64.thetaDot st)%float in
    let u := B64.computeControl G st in
    (is_nan pid = true -> is_nan u = true) /\
    (is_nan pid = false ->
     (-50 <=? u)%float = true /\ (u <=? 50)%float = true /\
     ((-50 <=? pid)%float = true -> (pid <=? 50)%float = true -> u = pid) /\
     ((50 <? pid)%float = true -> u = 50%float) /\
     ((pid <? -50)%float = true -> u = (-50)%float)) /\
    (forall st' : B64.State,
        B64.theta st' = B64.theta st -> B64.thetaDot st' = B64.thetaDot st ->
        B64.integral st' = B64.integral st ->
        B64.computeControl G st' = u).
Proof.
  intros G st pid u.
  assert (Hpure : forall st' : B64.State,
             B64.theta st' = B64.theta st -> B64.thetaDot st' = B64.thetaDot st ->
             B64.integral st' = B64.integral st ->
             B64.computeControl G st' = u).
  { intros st' H1 H2 H3. unfold u, B64.computeControl.
    rewrite H1, H2, H3. reflexivity. }
  assert (Hu : u = B64.max (-50) (B64.min 50 pid)) by reflexivity.
  clearbody pid u.
  split; [|split; [|exact Hpure]].
  - intros Hn. rewrite Hu, (min_nan _ Hn). reflexivity.
  - intros Hn. rewrite Hu, (min_high _ Hn).
    destruct (50 <? pid)%float eqn:Ehi.
    + change (B64.max (-50) 50) with 50%float.
      split; [reflexivity|]. split; [reflexivity|].
      split; [|split].
      * intros _ Hle. rewrite (ltb_not_leb _ _ Ehi) in Hle. discriminate Hle.
      * reflexivity.
      * intros Hlo. rewrite (below_low_not_above_high _ Hlo) in Ehi.
        discriminate Ehi.
    + rewrite (max_low _ Hn).
      assert (Hle : (pid <=? 50)%float = true)
        by (apply not_ltb_leb; [reflexivity|exact Hn|exact Ehi]).
      destruct (pid <? -50)%float eqn:Elo.
      * split; [reflexivity|]. split; [reflexivity|].
        split; [|split].
        -- intros Hge _. rewrite (ltb_not_leb _ _ Elo) in Hge. discriminate Hge.
        -- intros H; discriminate H.
        -- reflexivity.
      * split; [apply not_ltb_leb; [exact Hn|reflexivity|exact Elo]|].
        split; [exact Hle|].
        split; [reflexivity|].
        split; intros H; discriminate H.
Qed.

(** The three regimes of the binary64 controller at the default
    gains. *)
Example computeControl_binary64_regimes :
  B64.computeControl B64.default_gains (B64.leaning 0.0625 0) = 3.125%float /\
  B64.computeControl B64.default_gains (B64.leaning 1 1) = 50%float /\
  B64.computeControl B64.default_gains (B64.leaning (-1) (-1)) = (-50)%float /\
  B64.computeControl B64.default_gains (B64.leaning 0 0) = 0%float.
Proof.
  vm_compute. repeat split; reflexivity.
Qed.

(** The three regimes of the real-number controller at the default
    gains. *)
Example computeControl_in_range :
  computeControl {| Kp := 50; Ki := 0; Kd := 20 |}
    {| mech := {| x := 0; xDot := 0; theta := 0.1; thetaDot := 0 |};
       integral := 0; time := 0 |} = 5.
Proof.
  unfold computeControl; cbv zeta; rewrite clamp_max_min; unfold Spec.clamp; simpl.
  repeat (destruct Rlt_dec); lra.
Qed.

Example computeControl_saturates_high :
  computeControl {| Kp := 50; Ki := 0; Kd := 20 |}
    {| mech := {| x := 0; xDot := 0; theta := 1; thetaDot := 1 |};
       integral := 0; time := 0 |} = 50.
Proof.
  unfold computeControl; cbv zeta; rewrite clamp_max_min; unfold Spec.clamp; simpl.
  repeat (destruct Rlt_dec); lra.
Qed.

Example computeControl_saturates_low :
  computeControl {| Kp := 50; Ki := 0; Kd := 20 |}
    {| mech := {| x := 0; xDot := 0; theta := -1; thetaDot := -1 |};
       integral := 0; time := 0 |} = -50.
Proof.
  unfold computeControl; cbv zeta; rewrite clamp_max_min; unfold Spec.clamp; simpl.
  repeat (destruct Rlt_dec); lra.
Qed.

(** ** Integrator *)

Lemma half_advance_vadd :
  forall (y k : Mech) (h : R),
    {| x := x y + x k * h / 2; xDot := xDot y + xDot k * h / 2;
       theta := theta y + theta k * h / 2;
       thetaDot := thetaDot y + thetaDot k * h / 2 |}
    = Spec.vadd y (Spec.vscale (h / 2) k).
Proof.
  intros y k h. unfold Spec.vadd, Spec.vscale; simpl.
  f_equal; field.
Qed.

Lemma full_advance_vadd :
  forall (y k : Mech) (h : R),
    {| x := x y + x k * h; xDot := xDot y + xDot k * h;
       theta := theta y + theta k * h;
       thetaDot := thetaDot y + thetaDot k * h |}
    = Spec.vadd y (Spec.vscale h k).
Proof.
  intros y k h. unfold Spec.vadd, Spec.vscale; simpl.
  f_equal; ring.
Qed.

(** C1: for any state, force and step size, the mechanical part of
    [rk4Step] is the classical four-stage Runge-Kutta step for the
    equations of motion with the force held fixed in the four
    evaluations (stages at the state, twice at the state advanced by
    [dt/2], once by [dt]; weights 1, 2, 2, 1 scaled by [dt/6]), while
    [integral] becomes [integral + theta*dt] with the angle before the
    step and [time] becomes [time + dt]. *)
Theorem rk4Step_classical :
  forall (P : Params) (st : State) (u h : R),
    mech (rk4Step P st u h) = Spec.rk4 (eom_field P u) st h /\
    integral (rk4Step P st u h) = integral st + theta st * h /\
    time (rk4Step P st u h) = time st + h.
Proof.
  intros P st u h.
  split; [|split; reflexivity].
  unfold Spec.rk4.
  rewrite <- (half_advance_vadd st (eom_field P u st) h).
  rewrite <- (half_advance_vadd st (eom_field P u _) h).
  rewrite <- (full_advance_vadd st (eom_field P u _) h).
  unfold rk4Step, eom_field; cbn [mech x xDot theta thetaDot].
  set (k1 := computeDerivatives P st u).
  set (k2 := computeDerivatives P _ u).
  set (k3 := computeDerivatives P _ u).
  set (k4 := computeDerivatives P _ u).
  unfold Spec.vadd, Spec.vscale; cbn [x xDot theta thetaDot].
  f_equal; field.
Qed.

(** ** Reset *)

(** C8: from any driver state the reset command leaves [x = 0],
    [xDot = 0], [thetaDot = 0], [integral = 0], [time = 0] and [theta]
    equal to the configured initial angle, which it does not change. *)
Theorem reset_restores_initial_state :
  forall d : Driver,
    let d' := handle ResetClick d in
    state d' = {| mech := {| x := 0; xDot := 0; theta := initialTheta d; thetaDot := 0 |};
                  integral := 0; time := 0 |} /\
    initialTheta d' = initialTheta d /\
    isRunning d' = false /\
    (forall deg : R,
        theta (state (handle ResetClick (handle (Theta0Input deg) d))) = deg * PI / 180).
Proof.
  intros d d'. subst d'.
  assert (Hinit : forall e, initialTheta (cancelAnimationFrame e) = initialTheta e).
  { intros e. unfold cancelAnimationFrame.
    destruct (animationId e) as [h|]; [destruct (Nat.eqb h 0)|]; reflexivity. }
  assert (Hrun : forall e, isRunning (cancelAnimationFrame e) = isRunning e).
  { intros e. unfold cancelAnimationFrame.
    destruct (animationId e) as [h|]; [destruct (Nat.eqb h 0)|]; reflexivity. }
  cbn [handle]. unfold onResetClick, resetState.
  cbn [state set_state set_controlInput show initialTheta set_startBtn isRunning].
  rewrite !Hinit, Hrun. cbn [initialTheta set_isRunning isRunning].
  repeat split.
  intros deg. unfold onTheta0Input.
  destruct (negb _); cbn; rewrite !Hinit; reflexivity.
Qed.

(** ** One tick of the animation loop *)

Lemma sign_of_large :
  forall v : R, Rabs v > 2.5 -> Rabs (sign v * 2.5) = 2.5.
Proof.
  intros v Hv. unfold sign.
  destruct (Rlt_dec 0 v) as [Hpos|Hnpos].
  - rewrite Rabs_pos_eq; lra.
  - destruct (Rlt_dec v 0) as [Hneg|Hnneg].
    + rewrite Rabs_left; lra.
    + assert (v = 0) by lra. subst v. rewrite Rabs_R0 in Hv. lra.
Qed.

Lemma boundCart_bounded :
  forall s : State, Rabs (x (boundCart s)) <= 2.5.
Proof.
  intros s. unfold boundCart.
  destruct (Rgt_dec (Rabs (x s)) 2.5) as [Hout|Hin].
  - cbn [mech x]. rewrite (sign_of_large _ Hout). lra.
  - lra.
Qed.

Lemma boundCart_inside :
  forall s : State, Rabs (x s) <= 2.5 -> boundCart s = s.
Proof.
  intros s Hin. unfold boundCart.
  destruct (Rgt_dec (Rabs (x s)) 2.5); [lra | reflexivity].
Qed.


Lemma boundCart_others :
  forall s : State,
    theta (boundCart s) = theta s /\ thetaDot (boundCart s) = thetaDot s /\
    integral (boundCart s) = integral s /\ time (boundCart s) = time s.
Proof.
  intros s. unfold boundCart.
  destruct (Rgt_dec (Rabs (x s)) 2.5); repeat split.
Qed.

Lemma checkFallen_state :
  forall d : Driver, state (checkFallen d) = state d.
Proof.
  intros d. unfold checkFallen. destruct Rgt_dec; reflexivity.
Qed.

Lemma reschedule_state :
  forall d : Driver, state (reschedule d) = state d.
Proof.
  intros d. unfold reschedule. destruct (isRunning d); reflexivity.
Qed.

Lemma finishTick_state :
  forall d : Driver, state (finishTick d) = boundCart (state d).
Proof.
  intros d. unfold finishTick; cbv zeta.
  rewrite reschedule_state. cbn [show state].
  rewrite checkFallen_state. reflexivity.
Qed.

Lemma simulate_running :
  forall d : Driver,
    isRunning d = true ->
    simulate d = finishTick (physics d) /\ isRunning (physics d) = true.
Proof.
  intros d Hrun. unfold simulate. rewrite Hrun. split; [reflexivity | exact Hrun].
Qed.

Lemma simulate_stopped :
  forall d : Driver, isRunning d = false -> simulate d = d.
Proof.
  intros d Hrun. unfold simulate. rewrite Hrun. reflexivity.
Qed.

Lemma substep_state :
  forall d : Driver, state (substep d) = controlStep (gains d) (state d).
Proof. intros d. reflexivity. Qed.

Lemma physics_state :
  forall d : Driver,
    state (physics d) = controlStep (gains d) (controlStep (gains d) (state d)).
Proof.
  intros d. change (physics d) with (substep (substep d)).
  rewrite !substep_state. reflexivity.
Qed.

Lemma controlStep_time :
  forall (G : Gains) (s : State), time (controlStep G s) = time s + 0.01.
Proof. intros G s. reflexivity. Qed.

Lemma physics_time :
  forall d : Driver, time (state (physics d)) = time (state d) + 0.01 + 0.01.
Proof.
  intros d. rewrite physics_state, !controlStep_time. reflexivity.
Qed.


(** C10: the two thresholds are strict and the clamp touches only [x]
    and [xDot]: at the end of the sub-steps of a tick, [|theta| = PI/2]
    leaves the run going (a new frame is requested, the button keeps its
    text), [|x| = 2.5] leaves the state as it is, and in every case
    [theta], [thetaDot], [integral] and [time] are those the sub-steps
    produced. *)
Theorem thresholds_are_strict :
  forall d1 : Driver,
    isRunning d1 = true ->
    let d' := finishTick d1 in
    (Rabs (theta (state d1)) = PI / 2 ->
     isRunning d' = true /\ startBtn d' = startBtn d1 /\
     animationId d' = Some (nextHandle d1) /\
     frames d' = frames d1 ++ [nextHandle d1]) /\
    (Rabs (x (state d1)) = 2.5 ->
     x (state d') = x (state d1) /\ xDot (state d') = xDot (state d1)) /\
    theta (state d') = theta (state d1) /\
    thetaDot (state d') = thetaDot (state d1) /\
    integral (state d') = integral (state d1) /\
    time (state d') = time (state d1) /\
    (forall d : Driver,
        isRunning d = true -> d1 = physics d -> simulate d = d').
Proof.
  intros d1 Hrun d'.
  assert (Hst : state d' = boundCart (state d1)) by apply finishTick_state.
  split; [|split].
  - intros Hedge. unfold d', finishTick; cbv zeta.
    unfold checkFallen. cbn [set_state state].
    destruct (boundCart_others (state d1)) as [-> _].
    destruct (Rgt_dec (Rabs (theta (state d1))) (PI / 2)) as [Hgt|_]; [lra|].
    unfold reschedule. cbn [show isRunning set_state]. rewrite Hrun.
    repeat split. exact Hrun.
  - intros Hedge. rewrite Hst, boundCart_inside by lra. split; reflexivity.
  - rewrite Hst. destruct (boundCart_others (state d1)) as (-> & -> & -> & ->).
    repeat split.
    intros d Hd ->. apply simulate_running, Hd.
Qed.

Lemma thresholds_are_strict_witness :
  isRunning on_both_thresholds = true /\
  isRunning (finishTick on_both_thresholds) = true /\
  x (state (finishTick on_both_thresholds)) = 2.5 /\
  xDot (state (finishTick on_both_thresholds)) = 1.
Proof.
  pose proof (thresholds_are_strict on_both_thresholds eq_refl) as (Hth & Hx & _).
  assert (Ht : Rabs (theta (state on_both_thresholds)) = PI / 2).
  { simpl. apply Rabs_pos_eq. pose proof PI2_RGT_0. lra. }
  assert (Hp : Rabs (x (state on_both_thresholds)) = 2.5).
  { simpl. apply Rabs_pos_eq. lra. }
  split; [reflexivity|].
  split; [apply (Hth Ht)|].
  exact (Hx Hp).
Defined.

(** ** Equilibria *)

Lemma zero_derivatives :
  forall (P : Params) (y : Mech),
    sin (theta y) = 0 -> thetaDot y = 0 -> xDot y = 0 ->
    computeDerivatives P y 0 = D.mk 0 0 0 0.
Proof.
  intros P y Hs Hw Hv. unfold computeDerivatives.
  rewrite Hs, Hw, Hv. f_equal; unfold Rdiv; ring.
Qed.

Lemma rk4Step_equilibrium :
  forall (P : Params) (st : State) (h : R),
    sin (theta st) = 0 -> thetaDot st = 0 -> xDot st = 0 ->
    rk4Step P st 0 h
    = {| mech := st; integral := integral st + theta st * h; time := time st + h |}.
Proof.
  intros P [[x0 v0 a0 w0] i0 t0] h Hs Hw Hv. cbn in Hs, Hw, Hv. subst v0 w0.
  assert (E2 : forall a : R, a + 0 * h / 2 = a) by (intros; field).
  assert (E1 : forall a : R, a + 0 * h = a) by (intros; ring).
  assert (E6 : forall a : R, a + (0 + 2 * 0 + 2 * 0 + 0) * h / 6 = a) by (intros; field).
  assert (Hz : computeDerivatives P {| x := x0; xDot := 0; theta := a0; thetaDot := 0 |} 0
               = D.mk 0 0 0 0) by (apply zero_derivatives; auto).
  unfold rk4Step; cbn [mech x xDot theta thetaDot integral time].
  repeat (progress (rewrite ?Hz, ?E2, ?E1;
                    cbn [D.xDot D.xDDot D.thetaDot D.thetaDDot])).
  rewrite !E6. reflexivity.
Qed.

Lemma clamp_zero : Rmax (-50) (Rmin 50 0) = 0.
Proof.
  rewrite clamp_max_min. unfold Spec.clamp.
  repeat (destruct Rlt_dec); lra.
Qed.

Lemma substep_equilibrium :
  forall d : Driver,
    Kp (gains d) * theta (state d) = 0 -> Ki (gains d) = 0 ->
    sin (theta (state d)) = 0 -> thetaDot (state d) = 0 -> xDot (state d) = 0 ->
    mech (state (substep d)) = mech (state d) /\
    controlInput (substep d) = 0.
Proof.
  intros d Hp Hi Hs Hw Hv.
  assert (Hu : computeControl (gains d) (state d) = 0).
  { unfold computeControl; cbv zeta. rewrite Hp, Hi, Hw.
    replace (0 + 0 * integral (state d) + Kd (gains d) * 0) with 0 by ring.
    apply clamp_zero. }
  unfold substep; cbv zeta. cbn [state set_state set_controlInput controlInput].
  rewrite Hu, rk4Step_equilibrium by assumption.
  split; reflexivity.
Qed.

Lemma physics_equilibrium :
  forall d : Driver,
    Kp (gains d) * theta (state d) = 0 -> Ki (gains d) = 0 ->
    sin (theta (state d)) = 0 -> thetaDot (state d) = 0 -> xDot (state d) = 0 ->
    mech (state (physics d)) = mech (state d).
Proof.
  intros d Hp Hi Hs Hw Hv.
  destruct (substep_equilibrium d Hp Hi Hs Hw Hv) as [H1 _].
  change (physics d) with (substep (substep d)).
  assert (Hg : gains (substep d) = gains d) by reflexivity.
  destruct (substep_equilibrium (substep d)) as [H2 _];
    rewrite ?Hg, ?H1; auto.
  rewrite H2. exact H1.
Qed.


(** ** After a fall *)

Lemma finishTick_fallen :
  forall d : Driver,
    Rabs (theta (state d)) > PI / 2 ->
    isRunning (finishTick d) = false /\
    startBtn (finishTick d) = "Start"%string /\
    frames (finishTick d) = frames d.
Proof.
  intros d Hfall. unfold finishTick; cbv zeta.
  unfold checkFallen. cbn [set_state state].
  destruct (boundCart_others (state d)) as [-> _].
  destruct (Rgt_dec (Rabs (theta (state d))) (PI / 2)) as [_|Hle]; [|lra].
  repeat split.
Qed.

(** While the driver is stopped, slider inputs and frames leave it
    stopped and step nothing: only [theta] can change (by the initial
    angle slider). *)
Lemma with_theta_same : forall s : State, with_theta s (theta s) = s.
Proof. intros [[? ? ? ?] ? ?]. reflexivity. Qed.

Lemma quiet_event_stopped :
  forall (e : Event) (d : Driver),
    quiet e = true -> isRunning d = false ->
    let d' := handle e d in
    isRunning d' = false /\
    state d' = with_theta (state d) (angle_after [e] (theta (state d))).
Proof.
  intros e d Hq Hstop.
  destruct e; try discriminate Hq; cbn [handle angle_after fold_left]; cbv zeta.
  - unfold onKpInput. split; [assumption|]. symmetry; apply with_theta_same.
  - unfold onKiInput. split; [assumption|]. symmetry; apply with_theta_same.
  - unfold onKdInput. split; [assumption|]. symmetry; apply with_theta_same.
  - unfold onTheta0Input; cbv zeta. cbn [isRunning set_initialTheta].
    rewrite Hstop. cbn. split; [assumption|reflexivity].
  - unfold onFrame. destruct (frames d) as [|h q].
    + split; [assumption|]. symmetry; apply with_theta_same.
    + rewrite simulate_stopped by exact Hstop.
      split; [assumption|]. symmetry; apply with_theta_same.
Qed.

Lemma quiet_run_stopped :
  forall (evs : list Event) (d : Driver),
    forallb quiet evs = true -> isRunning d = false ->
    let d' := run evs d in
    isRunning d' = false /\
    state d' = with_theta (state d) (angle_after evs (theta (state d))).
Proof.
  intros evs. induction evs as [|e evs IH]; intros d Hq Hstop.
  - cbn. split; [assumption|]. symmetry; apply with_theta_same.
  - cbn [forallb] in Hq. apply andb_prop in Hq. destruct Hq as [He Hq].
    destruct (quiet_event_stopped e d He Hstop) as [H0 H1].
    destruct (IH (handle e d) Hq H0) as [H2 H3].
    change (run (e :: evs) d) with (run evs (handle e d)).
    split; [exact H2|].
    cbv zeta in H3. rewrite H3, H1.
    unfold angle_after; cbn [fold_left theta mech with_theta x xDot thetaDot integral time].
    reflexivity.
Qed.

Lemma frame_or_gain_quiet :
  forall (evs : list Event) (a : R),
    forallb frame_or_gain evs = true ->
    forallb quiet evs = true /\ angle_after evs a = a.
Proof.
  intros evs. induction evs as [|e evs IH]; intros a H.
  - split; reflexivity.
  - cbn [forallb] in H. apply andb_prop in H. destruct H as [He H].
    destruct (IH a H) as [Hq Ha].
    destruct e; try discriminate He;
      (split; [cbn [forallb quiet]; exact Hq|exact Ha]).
Qed.

(** A start click on a stopped driver followed by the frame it requested
    (or an older one) runs one more tick. *)
Lemma start_then_frame :
  forall d : Driver,
    isRunning d = false ->
    state (run [StartClick; Frame] d) = boundCart (state (physics d)).
Proof.
  intros d Hstop.
  unfold run; cbn [fold_left handle]. unfold onStartClick. rewrite Hstop.
  unfold onFrame, requestAnimationFrame; cbv zeta. cbn [frames set_startBtn set_isRunning].
  destruct (frames d) as [|h q]; cbn [app];
    (match goal with
     | |- state (simulate ?e) = _ =>
         rewrite (proj1 (simulate_running e eq_refl)), finishTick_state
     end; rewrite !physics_state; reflexivity).
Qed.

Lemma physics_set_frames :
  forall (d : Driver) (q : list nat),
    state (physics (set_frames d q)) = state (physics d).
Proof. intros d q. rewrite !physics_state. reflexivity. Qed.

Lemma onFrame_running :
  forall (d : Driver) (h : nat) (q : list nat),
    frames d = h :: q -> isRunning d = true ->
    handle Frame d = finishTick (physics (set_frames d q)).
Proof.
  intros d h q Hfr Hrun. cbn [handle]. unfold onFrame. rewrite Hfr.
  apply simulate_running. exact Hrun.
Qed.

(** A fall, then a start click and a frame: the clock shows four
    sub-steps, two of them after the fall. *)
Lemma fall_then_start :
  forall (d : Driver) (h : nat) (q : list nat),
    isRunning d = true -> frames d = h :: q ->
    Rabs (theta (state (physics d))) > PI / 2 ->
    let fallen := handle Frame d in
    Rabs (theta (state fallen)) > PI / 2 /\
    isRunning fallen = false /\
    time (state fallen) = time (state d) + 0.01 + 0.01 /\
    time (state (run [StartClick; Frame] fallen))
    = time (state d) + 0.01 + 0.01 + 0.01 + 0.01.
Proof.
  intros d h q Hrun Hfr Hfall fallen.
  assert (Hf : fallen = finishTick (physics (set_frames d q)))
    by (apply (onFrame_running d h q); assumption).
  assert (Hst : state fallen = boundCart (state (physics d))).
  { rewrite Hf, finishTick_state, physics_set_frames. reflexivity. }
  assert (Hstop : isRunning fallen = false).
  { rewrite Hf. apply finishTick_fallen. rewrite physics_set_frames. exact Hfall. }
  assert (Ht : time (state fallen) = time (state d) + 0.01 + 0.01).
  { rewrite Hst. destruct (boundCart_others (state (physics d))) as (_ & _ & _ & ->).
    apply physics_time. }
  split; [|split; [exact Hstop|split; [exact Ht|]]].
  - rewrite Hst. destruct (boundCart_others (state (physics d))) as (-> & _).
    exact Hfall.
  - rewrite (start_then_frame fallen Hstop).
    destruct (boundCart_others (state (physics fallen))) as (_ & _ & _ & ->).
    rewrite physics_time, Ht. reflexivity.
Qed.

Lemma hanging_facts :
  isRunning hanging = true /\ frames hanging = [1%nat] /\
  time (state hanging) = 0 /\
  Rabs (theta (state (physics hanging))) > PI / 2.
Proof.
  assert (Hth : theta (state hanging) = PI).
  { change (theta (state hanging)) with (180 * PI / 180). field. }
  assert (Hm : mech (state (physics hanging)) = mech (state hanging)).
  { apply physics_equilibrium; try reflexivity.
    - change (Kp (gains hanging)) with 0. ring.
    - rewrite Hth. apply sin_PI. }
  split; [reflexivity|]. split; [reflexivity|]. split; [reflexivity|].
  rewrite Hm, Hth, Rabs_pos_eq; pose proof PI_RGT_0; lra.
Qed.

(** C4, as the specification states it, fails: after the tick that ends
    with the pendulum fallen, a start click alone (followed by the frame
    it requests) steps the state again. *)
Lemma start_after_fall_steps :
  let fallen := handle Frame hanging in
  Rabs (theta (state fallen)) > PI / 2 /\
  isRunning fallen = false /\
  time (state fallen) = 0.02 /\
  time (state (run [StartClick; Frame] fallen)) = 0.04 /\
  state (run [StartClick; Frame] fallen) <> state fallen.
Proof.
  intros fallen.
  destruct hanging_facts as (Hrun & Hfr & Ht0 & Hfall).
  destruct (fall_then_start hanging 1%nat [] Hrun Hfr Hfall)
    as (Hth & Hstop & Ht & Ht').
  fold fallen in Hth, Hstop, Ht, Ht'.
  rewrite Ht0 in Ht, Ht'.
  split; [exact Hth|]. split; [exact Hstop|].
  split; [rewrite Ht; lra|]. split; [rewrite Ht'; lra|].
  intros Heq. rewrite Heq, Ht in Ht'. lra.
Qed.

(** C4 (amended): once a tick ends with [|theta| > PI/2] the driver is
    stopped ([isRunning] is false, no frame is requested, the button
    reads "Start"), and as long as neither button is clicked nothing is
    stepped.  Frames and the three gain sliders leave the whole state,
    [theta] included, as it is; the initial-angle slider overwrites
    [theta] with the angle it is set to and touches no other field, so
    after any run of slider inputs and frames the state is the fallen
    one with [theta] replaced by the last angle set, if any.  A start
    click resumes the run (the next frame performs the two sub-steps and
    the clamp again); a reset click restores the initial state. *)
Theorem fall_stops_until_button :
  forall d : Driver,
    isRunning d = true ->
    Rabs (theta (state (physics d))) > PI / 2 ->
    let d' := simulate d in
    isRunning d' = false /\ startBtn d' = "Start"%string /\ frames d' = frames d /\
    (forall evs : list Event,
        forallb quiet evs = true ->
        let d'' := run evs d' in
        isRunning d'' = false /\
        state d'' = with_theta (state d') (angle_after evs (theta (state d')))) /\
    (forall evs : list Event,
        forallb frame_or_gain evs = true ->
        let d'' := run evs d' in
        isRunning d'' = false /\ state d'' = state d') /\
    state (run [StartClick; Frame] d') = boundCart (state (physics d')) /\
    time (state (run [StartClick; Frame] d')) = time (state d') + 0.01 + 0.01 /\
    state (handle ResetClick d')
    = {| mech := {| x := 0; xDot := 0; theta := initialTheta d; thetaDot := 0 |};
         integral := 0; time := 0 |}.
Proof.
  intros d Hrun Hfall d'.
  destruct (simulate_running d Hrun) as [Hsim _].
  destruct (finishTick_fallen (physics d) Hfall) as (Hstop & Hbtn & Hfr).
  unfold d'. rewrite Hsim.
  split; [exact Hstop|]. split; [exact Hbtn|]. split; [exact Hfr|].
  split; [intros evs Hq; apply quiet_run_stopped; assumption|].
  split.
  { intros evs Hfg.
    destruct (frame_or_gain_quiet evs
                (theta (state (finishTick (physics d)))) Hfg) as [Hq Ha].
    destruct (quiet_run_stopped evs _ Hq Hstop) as [H1 H2].
    split; [exact H1|].
    cbv zeta in H2. rewrite H2, Ha. apply with_theta_same. }
  split; [apply start_then_frame, Hstop|].
  split.
  - rewrite (start_then_frame _ Hstop).
    destruct (boundCart_others (state (physics (finishTick (physics d))))) as (_ & _ & _ & ->).
    apply physics_time.
  - cbn [handle]. unfold onResetClick, resetState.
    cbn [state set_state set_controlInput show initialTheta set_startBtn].
    assert (Hinit : forall e, initialTheta (cancelAnimationFrame e) = initialTheta e).
    { intros e. unfold cancelAnimationFrame.
      destruct (animationId e) as [h|]; [destruct (Nat.eqb h 0)|]; reflexivity. }
    rewrite Hinit. cbn [initialTheta set_isRunning].
    assert (Hi : initialTheta (finishTick (physics d)) = initialTheta d).
    { unfold finishTick, reschedule, checkFallen; cbv zeta.
      repeat (match goal with |- context [if ?c then _ else _] => destruct c end);
        reflexivity. }
    rewrite Hi. reflexivity.
Qed.

Lemma fall_stops_until_button_witness :
  isRunning hanging = true /\
  Rabs (theta (state (physics hanging))) > PI / 2 /\
  isRunning (simulate hanging) = false /\
  state (run [Frame; Theta0Input 90; KpInput 3; Frame] (simulate hanging))
  = with_theta (state (simulate hanging)) (90 * PI / 180) /\
  state (run [Frame; KdInput 3; Frame] (simulate hanging))
  = state (simulate hanging) /\
  time (state (run [StartClick; Frame] (simulate hanging)))
  = time (state (simulate hanging)) + 0.01 + 0.01.
Proof.
  destruct hanging_facts as (Hrun & _ & _ & Hfall).
  pose proof (fall_stops_until_button hanging Hrun Hfall) as H.
  cbv zeta in H.
  destruct H as (H1 & _ & _ & H2 & H3 & _ & H4 & _).
  split; [exact Hrun|]. split; [exact Hfall|].
  split; [exact H1|].
  split; [exact (proj2 (H2 [Frame; Theta0Input 90; KpInput 3; Frame] eq_refl))|].
  split; [exact (proj2 (H3 [Frame; KdInput 3; Frame] eq_refl))|].
  exact H4.
Defined.

(** ** Enclosures are sound *)

Lemma scale_pos : 0 < IZR Ivl.scale.
Proof. apply IZR_lt. reflexivity. Qed.

Lemma div_floor :
  forall a c : Z, (0 < c)%Z -> IZR (a / c) * IZR c <= IZR a.
Proof.
  intros a c Hc. rewrite <- mult_IZR. apply IZR_le.
  rewrite Z.mul_comm. apply Z.mul_div_le. exact Hc.
Qed.

Lemma cdiv_ceil :
  forall a c : Z, (0 < c)%Z -> IZR a <= IZR (Ivl.cdiv a c) * IZR c.
Proof.
  intros a c Hc. unfold Ivl.cdiv.
  pose proof (div_floor (- a) c Hc) as H.
  rewrite !opp_IZR in *. lra.
Qed.

Lemma floor_scale_le :
  forall a : Z, IZR (Ivl.floor_scale a) * IZR Ivl.scale <= IZR a.
Proof.
  intros a. unfold Ivl.floor_scale.
  rewrite Z.shiftr_div_pow2 by (unfold Ivl.prec; lia).
  change (2 ^ Ivl.prec)%Z with Ivl.scale.
  apply div_floor. reflexivity.
Qed.

Lemma ceil_scale_ge :
  forall a : Z, IZR a <= IZR (Ivl.ceil_scale a) * IZR Ivl.scale.
Proof.
  intros a. unfold Ivl.ceil_scale.
  pose proof (floor_scale_le (- a)) as H. unfold Ivl.floor_scale in H.
  rewrite !opp_IZR in *. lra.
Qed.

Lemma of_Z_sound : forall n : Z, Ivl.contains (Ivl.of_Z n) (IZR n).
Proof.
  intros n. unfold Ivl.contains, Ivl.of_Z. rewrite mult_IZR. lra.
Qed.

Lemma of_Q_sound :
  forall n d : Z, Ivl.contains (Ivl.of_Q n d) (IZR n / IZR d).
Proof.
  intros n d. unfold Ivl.of_Q.
  destruct (Z.ltb_spec 0 d) as [Hd|Hd]; [|exact I].
  unfold Ivl.contains.
  pose proof (div_floor (n * Ivl.scale) d Hd) as Hlo.
  pose proof (cdiv_ceil (n * Ivl.scale) d Hd) as Hhi.
  rewrite mult_IZR in Hlo, Hhi.
  assert (Hd' : 0 < IZR d) by (apply IZR_lt; exact Hd).
  replace (IZR n / IZR d * IZR Ivl.scale) with (IZR n * IZR Ivl.scale / IZR d)
    by (field; lra).
  split.
  - apply Rmult_le_reg_r with (IZR d); [exact Hd'|].
    replace (IZR n * IZR Ivl.scale / IZR d * IZR d) with (IZR n * IZR Ivl.scale)
      by (field; lra).
    exact Hlo.
  - apply Rmult_le_reg_r with (IZR d); [exact Hd'|].
    replace (IZR n * IZR Ivl.scale / IZR d * IZR d) with (IZR n * IZR Ivl.scale)
      by (field; lra).
    exact Hhi.
Qed.

Lemma add_sound :
  forall (a b : Ivl.t) (r s : R),
    Ivl.contains a r -> Ivl.contains b s -> Ivl.contains (Ivl.add a b) (r + s).
Proof.
  intros [[al ah]|] [[bl bh]|] r s Ha Hb; try exact I.
  unfold Ivl.contains in *; cbn [Ivl.add]. rewrite !plus_IZR. lra.
Qed.

Lemma neg_sound :
  forall (a : Ivl.t) (r : R),
    Ivl.contains a r -> Ivl.contains (Ivl.neg a) (- r).
Proof.
  intros [[al ah]|] r Ha; try exact I.
  unfold Ivl.contains in *; cbn [Ivl.neg]. rewrite !opp_IZR. lra.
Qed.

Lemma sub_sound :
  forall (a b : Ivl.t) (r s : R),
    Ivl.contains a r -> Ivl.contains b s -> Ivl.contains (Ivl.sub a b) (r - s).
Proof.
  intros a b r s Ha Hb. unfold Ivl.sub, Rminus.
  apply add_sound; [exact Ha | apply neg_sound; exact Hb].
Qed.

(** A product lies between the products of the ends. *)
Lemma product_corners :
  forall l1 h1 l2 h2 a b : R,
    l1 <= a <= h1 -> l2 <= b <= h2 ->
    (l1 * l2 <= a * b \/ l1 * h2 <= a * b \/ h1 * l2 <= a * b \/ h1 * h2 <= a * b) /\
    (a * b <= l1 * l2 \/ a * b <= l1 * h2 \/ a * b <= h1 * l2 \/ a * b <= h1 * h2).
Proof.
  intros l1 h1 l2 h2 a b [Ha1 Ha2] [Hb1 Hb2].
  destruct (Rle_dec 0 b) as [Hb|Hb];
    destruct (Rle_dec 0 l1) as [Hl|Hl];
    destruct (Rle_dec 0 h1) as [Hh|Hh];
    split;
    first [ left; nra | right; left; nra | right; right; left; nra
          | right; right; right; nra ].
Qed.

Lemma min4_le :
  forall (p1 p2 p3 p4 : Z) (r : R),
    IZR p1 <= r \/ IZR p2 <= r \/ IZR p3 <= r \/ IZR p4 <= r ->
    IZR (Z.min (Z.min p1 p2) (Z.min p3 p4)) <= r.
Proof.
  intros p1 p2 p3 p4 r H.
  assert (H1 : IZR (Z.min (Z.min p1 p2) (Z.min p3 p4)) <= IZR p1) by (apply IZR_le; lia).
  assert (H2 : IZR (Z.min (Z.min p1 p2) (Z.min p3 p4)) <= IZR p2) by (apply IZR_le; lia).
  assert (H3 : IZR (Z.min (Z.min p1 p2) (Z.min p3 p4)) <= IZR p3) by (apply IZR_le; lia).
  assert (H4 : IZR (Z.min (Z.min p1 p2) (Z.min p3 p4)) <= IZR p4) by (apply IZR_le; lia).
  destruct H as [H|[H|[H|H]]]; lra.
Qed.

Lemma max4_ge :
  forall (p1 p2 p3 p4 : Z) (r : R),
    r <= IZR p1 \/ r <= IZR p2 \/ r <= IZR p3 \/ r <= IZR p4 ->
    r <= IZR (Z.max (Z.max p1 p2) (Z.max p3 p4)).
Proof.
  intros p1 p2 p3 p4 r H.
  assert (H1 : IZR p1 <= IZR (Z.max (Z.max p1 p2) (Z.max p3 p4))) by (apply IZR_le; lia).
  assert (H2 : IZR p2 <= IZR (Z.max (Z.max p1 p2) (Z.max p3 p4))) by (apply IZR_le; lia).
  assert (H3 : IZR p3 <= IZR (Z.max (Z.max p1 p2) (Z.max p3 p4))) by (apply IZR_le; lia).
  assert (H4 : IZR p4 <= IZR (Z.max (Z.max p1 p2) (Z.max p3 p4))) by (apply IZR_le; lia).
  destruct H as [H|[H|[H|H]]]; lra.
Qed.

Lemma mul_sound :
  forall (a b : Ivl.t) (r s : R),
    Ivl.contains a r -> Ivl.contains b s -> Ivl.contains (Ivl.mul a b) (r * s).
Proof.
  intros [[al ah]|] [[bl bh]|] r s Ha Hb; try exact I.
  unfold Ivl.contains in *; cbn [Ivl.mul]; cbv zeta.
  pose proof scale_pos as HS.
  destruct (product_corners _ _ _ _ _ _ Ha Hb) as [Hlo Hhi].
  rewrite <- !mult_IZR in Hlo, Hhi.
  apply min4_le in Hlo. apply max4_ge in Hhi.
  pose proof (floor_scale_le (Z.min (Z.min (al * bl) (al * bh))
                                    (Z.min (ah * bl) (ah * bh)))) as Hf.
  pose proof (ceil_scale_ge (Z.max (Z.max (al * bl) (al * bh))
                                   (Z.max (ah * bl) (ah * bh)))) as Hc.
  split.
  - apply Rmult_le_reg_r with (IZR Ivl.scale); [exact HS|]. lra.
  - apply Rmult_le_reg_r with (IZR Ivl.scale); [exact HS|]. lra.
Qed.

Lemma divz_sound :
  forall (a : Ivl.t) (c : Z) (r : R),
    Ivl.contains a r -> Ivl.contains (Ivl.divz a c) (r / IZR c).
Proof.
  intros [[al ah]|] c r Ha; try exact I.
  cbn [Ivl.divz]. destruct (Z.ltb_spec 0 c) as [Hc|Hc]; [|exact I].
  unfold Ivl.contains in *.
  assert (Hc' : 0 < IZR c) by (apply IZR_lt; exact Hc).
  pose proof (div_floor al c Hc) as Hlo.
  pose proof (cdiv_ceil ah c Hc) as Hhi.
  replace (r / IZR c * IZR Ivl.scale) with (r * IZR Ivl.scale / IZR c) by (field; lra).
  split; apply Rmult_le_reg_r with (IZR c); try exact Hc';
    replace (r * IZR Ivl.scale / IZR c * IZR c) with (r * IZR Ivl.scale)
      by (field; lra); lra.
Qed.

Lemma inv_sound :
  forall (a : Ivl.t) (r : R),
    Ivl.contains a r -> Ivl.contains (Ivl.inv a) (/ r).
Proof.
  intros [[al ah]|] r Ha; try exact I.
  cbn [Ivl.inv]. destruct (Z.ltb_spec 0 al) as [Hl|Hl]; [|exact I].
  unfold Ivl.contains in *.
  pose proof scale_pos as HS.
  assert (Hl' : 0 < IZR al) by (apply IZR_lt; exact Hl).
  assert (Hh' : 0 < IZR ah) by lra.
  assert (Hh : (0 < ah)%Z) by (apply lt_IZR; exact Hh').
  assert (Hr : 0 < r) by nra.
  pose proof (div_floor (Ivl.scale * Ivl.scale) ah Hh) as Hlo.
  pose proof (cdiv_ceil (Ivl.scale * Ivl.scale) al Hl) as Hhi.
  rewrite mult_IZR in Hlo, Hhi.
  assert (Hinv : / r * IZR Ivl.scale * (r * IZR Ivl.scale) = IZR Ivl.scale * IZR Ivl.scale)
    by (field; lra).
  assert (Hpos : 0 < / r * IZR Ivl.scale).
  { apply Rmult_lt_0_compat; [apply Rinv_0_lt_compat; exact Hr | exact HS]. }
  split.
  - apply Rmult_le_reg_r with (IZR ah); [exact Hh'|]. nra.
  - apply Rmult_le_reg_r with (IZR al); [exact Hl'|]. nra.
Qed.

Lemma div_sound :
  forall (a b : Ivl.t) (r s : R),
    Ivl.contains a r -> Ivl.contains b s -> Ivl.contains (Ivl.div a b) (r / s).
Proof.
  intros a b r s Ha Hb. unfold Ivl.div, Rdiv.
  apply mul_sound; [exact Ha | apply inv_sound; exact Hb].
Qed.

Lemma max_sound :
  forall (a b : Ivl.t) (r s : R),
    Ivl.contains a r -> Ivl.contains b s -> Ivl.contains (Ivl.max a b) (Rmax r s).
Proof.
  intros [[al ah]|] [[bl bh]|] r s Ha Hb; try exact I.
  unfold Ivl.contains in *; cbn [Ivl.max].
  pose proof scale_pos as HS.
  pose proof (Rmax_l r s) as Hl. pose proof (Rmax_r r s) as Hr.
  assert (Hah : IZR ah <= IZR (Z.max ah bh)) by (apply IZR_le; lia).
  assert (Hbh : IZR bh <= IZR (Z.max ah bh)) by (apply IZR_le; lia).
  split.
  - destruct (Z.max_spec al bl) as [[_ ->]|[_ ->]]; nra.
  - unfold Rmax. destruct (Rle_dec r s); lra.
Qed.

Lemma min_sound :
  forall (a b : Ivl.t) (r s : R),
    Ivl.contains a r -> Ivl.contains b s -> Ivl.contains (Ivl.min a b) (Rmin r s).
Proof.
  intros [[al ah]|] [[bl bh]|] r s Ha Hb; try exact I.
  unfold Ivl.contains in *; cbn [Ivl.min].
  pose proof scale_pos as HS.
  pose proof (Rmin_l r s) as Hl. pose proof (Rmin_r r s) as Hr.
  assert (Hal : IZR (Z.min al bl) <= IZR al) by (apply IZR_le; lia).
  assert (Hbl : IZR (Z.min al bl) <= IZR bl) by (apply IZR_le; lia).
  split.
  - unfold Rmin. destruct (Rle_dec r s); lra.
  - destruct (Z.min_spec ah bh) as [[_ ->]|[_ ->]]; nra.
Qed.

(** Intervals are convex. *)
Lemma contains_between :
  forall (a : Ivl.t) (p q r : R),
    Ivl.contains a p -> Ivl.contains a q -> p <= r <= q -> Ivl.contains a r.
Proof.
  intros [[al ah]|] p q r Hp Hq Hr; try exact I.
  unfold Ivl.contains in *. pose proof scale_pos. nra.
Qed.

Lemma hull0_sound :
  forall (a : Ivl.t) (h r : R),
    0 <= h <= 1 -> Ivl.contains a r -> Ivl.contains (Ivl.hull0 a) (h * r).
Proof.
  intros [[al ah]|] h r Hh Ha; try exact I.
  unfold Ivl.contains in *; cbn [Ivl.hull0].
  assert (H1 : IZR (Z.min 0 al) <= 0) by (apply IZR_le; lia).
  assert (H2 : IZR (Z.min 0 al) <= IZR al) by (apply IZR_le; lia).
  assert (H3 : 0 <= IZR (Z.max 0 ah)) by (apply IZR_le; lia).
  assert (H4 : IZR ah <= IZR (Z.max 0 ah)) by (apply IZR_le; lia).
  destruct (Rle_dec 0 (r * IZR Ivl.scale)); split; nra.
Qed.

Lemma alt_sum_sound :
  forall (n : nat) (A2 T : Ivl.t) (k : Z) (h a2 t : R),
    0 <= h <= 1 -> Ivl.contains A2 a2 -> Ivl.contains T t ->
    Ivl.contains (Ivl.alt_sum A2 T k n) (alt_sumR h a2 t k n).
Proof.
  induction n as [|n IH]; intros A2 T k h a2 t Hh HA HT; cbn [Ivl.alt_sum alt_sumR].
  - apply hull0_sound; assumption.
  - apply sub_sound; [exact HT|].
    apply IH; [exact Hh | exact HA |].
    apply divz_sound, mul_sound; assumption.
Qed.

(** With weight [0] the last term drops out. *)
Lemma alt_sumR_drop_last :
  forall (n : nat) (a2 t : R) (k : Z),
    alt_sumR 0 a2 t k (S n) = alt_sumR 1 a2 t k n.
Proof.
  induction n as [|n IH]; intros a2 t k.
  - cbn [alt_sumR]. ring.
  - change (alt_sumR 0 a2 t k (S (S n)))
      with (t - alt_sumR 0 a2 (t * a2 / IZR ((k + 1) * (k + 2))) (k + 2) (S n)).
    rewrite IH. reflexivity.
Qed.

Lemma sum_f_R0_opp :
  forall (f : nat -> R) (n : nat),
    sum_f_R0 (fun i => - f i) n = - sum_f_R0 f n.
Proof.
  intros f n. induction n as [|n IH]; cbn [sum_f_R0].
  - reflexivity.
  - rewrite IH. ring.
Qed.

(** With weight [1] the sum is a partial sum of the series with terms
    [a^(2i+c) / (2i+c)!], started at the index [j]. *)
Lemma alt_sumR_series :
  forall (a : R) (c n j : nat) (t : R) (k : Z),
    t = a ^ (2 * j + c) / INR (fact (2 * j + c)) ->
    k = Z.of_nat (2 * j + c) ->
    alt_sumR 1 (a * a) t k n
    = sum_f_R0 (fun i => (-1) ^ i * (a ^ (2 * (j + i) + c) / INR (fact (2 * (j + i) + c)))) n.
Proof.
  intros a c n. induction n as [|n IH]; intros j t k Ht Hk.
  - cbn [alt_sumR sum_f_R0]. rewrite Nat.add_0_r, Ht. simpl pow. ring.
  - cbn [alt_sumR].
    rewrite (IH (S j) (t * (a * a) / IZR ((k + 1) * (k + 2))) (k + 2)%Z).
    + rewrite (decomp_sum _ (S n)) by lia. cbn [Init.Nat.pred].
      rewrite Nat.add_0_r, <- Ht.
      replace (sum_f_R0
                 (fun i : nat =>
                    (-1) ^ S i * (a ^ (2 * (j + S i) + c) / INR (fact (2 * (j + S i) + c)))) n)
        with (- sum_f_R0
                  (fun i : nat =>
                     (-1) ^ i * (a ^ (2 * (S j + i) + c) / INR (fact (2 * (S j + i) + c)))) n).
      * simpl pow. ring.
      * rewrite <- sum_f_R0_opp. apply sum_eq. intros i _.
        replace (2 * (j + S i) + c)%nat with (2 * (S j + i) + c)%nat by lia.
        simpl pow. ring.
    + subst t k.
      replace (2 * S j + c)%nat with (S (S (2 * j + c))) by lia.
      set (q := (2 * j + c)%nat).
      rewrite !fact_simpl, !mult_INR, mult_IZR.
      replace (Z.of_nat q + 1)%Z with (Z.of_nat (S q)) by lia.
      replace (Z.of_nat q + 2)%Z with (Z.of_nat (S (S q))) by lia.
      rewrite <- !INR_IZR_INZ.
      assert (H0 : INR (fact q) <> 0) by apply INR_fact_neq_0.
      assert (H1 : INR (S q) <> 0) by (apply not_0_INR; lia).
      assert (H2 : INR (S (S q)) <> 0) by (apply not_0_INR; lia).
      simpl pow. field. repeat split; assumption.
    + subst k. lia.
Qed.

Lemma alt_sumR_sin :
  forall (a : R) (n : nat), alt_sumR 1 (a * a) a 1 n = sin_approx a n.
Proof.
  intros a n.
  rewrite (alt_sumR_series a 1 n 0 a 1%Z).
  - unfold sin_approx. apply sum_eq. intros i _. unfold sin_term. reflexivity.
  - simpl. field.
  - reflexivity.
Qed.

Lemma alt_sumR_cos :
  forall (a : R) (n : nat), alt_sumR 1 (a * a) 1 0 n = cos_approx a n.
Proof.
  intros a n.
  rewrite (alt_sumR_series a 0 n 0 1 0%Z).
  - unfold cos_approx. apply sum_eq. intros i _. unfold cos_term.
    replace (2 * (0 + i) + 0)%nat with (2 * i)%nat by lia. reflexivity.
  - simpl. field.
  - reflexivity.
Qed.

Lemma sin_pos_sound :
  forall (N : nat) (A : Ivl.t) (a : R),
    0 <= a <= 2 -> Ivl.contains A a -> Ivl.contains (Ivl.sin_pos N A) (sin a).
Proof.
  intros N A a [Ha0 Ha2] HA. unfold Ivl.sin_pos.
  assert (HA2 : Ivl.contains (Ivl.mul A A) (a * a)) by (apply mul_sound; assumption).
  pose proof (alt_sum_sound (2 * (N + 1)) _ _ 1 0 _ _ ltac:(lra) HA2 HA) as Hlo.
  pose proof (alt_sum_sound (2 * (N + 1)) _ _ 1 1 _ _ ltac:(lra) HA2 HA) as Hhi.
  replace (2 * (N + 1))%nat with (S (2 * N + 1)) in Hlo at 2 by lia.
  rewrite alt_sumR_drop_last in Hlo. rewrite alt_sumR_sin in Hlo, Hhi.
  apply (contains_between _ _ _ _ Hlo Hhi).
  apply pre_sin_bound; lra.
Qed.

Lemma cos_pos_sound :
  forall (N : nat) (A : Ivl.t) (a : R),
    0 <= a <= 2 -> Ivl.contains A a -> Ivl.contains (Ivl.cos_pos N A) (cos a).
Proof.
  intros N A a [Ha0 Ha2] HA. unfold Ivl.cos_pos.
  assert (HA2 : Ivl.contains (Ivl.mul A A) (a * a)) by (apply mul_sound; assumption).
  pose proof (alt_sum_sound (2 * (N + 1)) _ _ 0 0 _ _ ltac:(lra) HA2 (of_Z_sound 1)) as Hlo.
  pose proof (alt_sum_sound (2 * (N + 1)) _ _ 0 1 _ _ ltac:(lra) HA2 (of_Z_sound 1)) as Hhi.
  replace (2 * (N + 1))%nat with (S (2 * N + 1)) in Hlo at 2 by lia.
  rewrite alt_sumR_drop_last in Hlo. rewrite alt_sumR_cos in Hlo, Hhi.
  apply (contains_between _ _ _ _ Hlo Hhi).
  apply pre_cos_bound; lra.
Qed.

Lemma unit_ball_sound :
  forall r : R, -1 <= r <= 1 -> Ivl.contains Ivl.unit_ball r.
Proof.
  intros r Hr. unfold Ivl.contains, Ivl.unit_ball.
  rewrite opp_IZR. pose proof scale_pos. nra.
Qed.

(** The range tests of [Ivl.sin] and [Ivl.cos], read on the reals. *)
Lemma range_nonneg :
  forall (al ah : Z) (a : R),
    Ivl.contains (Some (al, ah)) a ->
    (0 <=? al)%Z && (ah <=? 2 * Ivl.scale)%Z = true -> 0 <= a <= 2.
Proof.
  intros al ah a Ha Hb. apply andb_prop in Hb. destruct Hb as [H1 H2].
  apply Z.leb_le in H1, H2. apply IZR_le in H1, H2. rewrite mult_IZR in H2.
  unfold Ivl.contains in Ha. pose proof scale_pos. split; nra.
Qed.

Lemma range_nonpos :
  forall (al ah : Z) (a : R),
    Ivl.contains (Some (al, ah)) a ->
    (ah <=? 0)%Z && (- 2 * Ivl.scale <=? al)%Z = true -> 0 <= - a <= 2.
Proof.
  intros al ah a Ha Hb. apply andb_prop in Hb. destruct Hb as [H1 H2].
  apply Z.leb_le in H1, H2. apply IZR_le in H1, H2. rewrite mult_IZR in H2.
  unfold Ivl.contains in Ha. pose proof scale_pos. split; nra.
Qed.

Lemma sin_sound :
  forall (N : nat) (A : Ivl.t) (a : R),
    Ivl.contains A a -> Ivl.contains (Ivl.sin N A) (sin a).
Proof.
  intros N [[al ah]|] a HA; cbn [Ivl.sin];
    [|apply unit_ball_sound, SIN_bound].
  destruct ((0 <=? al)%Z && (ah <=? 2 * Ivl.scale)%Z) eqn:Hpos.
  - apply sin_pos_sound; [apply (range_nonneg al ah)|]; assumption.
  - destruct ((ah <=? 0)%Z && (- 2 * Ivl.scale <=? al)%Z) eqn:Hneg.
    + replace (sin a) with (- sin (- a)) by (rewrite sin_neg; ring).
      apply neg_sound, sin_pos_sound; [apply (range_nonpos al ah); assumption|].
      apply neg_sound. exact HA.
    + apply unit_ball_sound, SIN_bound.
Qed.

Lemma cos_sound :
  forall (N : nat) (A : Ivl.t) (a : R),
    Ivl.contains A a -> Ivl.contains (Ivl.cos N A) (cos a).
Proof.
  intros N [[al ah]|] a HA; cbn [Ivl.cos];
    [|apply unit_ball_sound, COS_bound].
  destruct ((0 <=? al)%Z && (ah <=? 2 * Ivl.scale)%Z) eqn:Hpos.
  - apply cos_pos_sound; [apply (range_nonneg al ah)|]; assumption.
  - destruct ((ah <=? 0)%Z && (- 2 * Ivl.scale <=? al)%Z) eqn:Hneg.
    + rewrite <- (cos_neg a).
      apply cos_pos_sound; [apply (range_nonpos al ah); assumption|].
      apply neg_sound. exact HA.
    + apply unit_ball_sound, COS_bound.
Qed.

(** ** The enclosure of [PI] *)

Lemma point_sound :
  forall z : Z, Ivl.contains (Some (z, z)) (IZR z / IZR Ivl.scale).
Proof.
  intros z. unfold Ivl.contains. pose proof scale_pos.
  replace (IZR z / IZR Ivl.scale * IZR Ivl.scale) with (IZR z) by (field; lra).
  lra.
Qed.

(** [PI / 2] lies between a point of [[0, 2]] where the cosine is
    positive and one where it is negative. *)
Lemma half_pi_between :
  forall a b : R,
    0 <= a <= 2 -> 0 <= b <= 2 -> 0 < cos a -> cos b < 0 -> a < PI / 2 < b.
Proof.
  intros a b Ha Hb Hca Hcb.
  pose proof PI2_3_2 as Hpi.
  split.
  - destruct (Rlt_dec a (PI / 2)) as [H|H]; [exact H|].
    assert (cos a <= 0) by (apply cos_le_0; lra). lra.
  - destruct (Rlt_dec (PI / 2) b) as [H|H]; [exact H|].
    assert (0 <= cos b) by (apply cos_ge_0; lra). lra.
Qed.

Lemma half_pi_sound : Ivl.contains Ivl.half_pi (PI / 2).
Proof.
  assert (Hc : Ivl.half_pi_checked = true) by (vm_compute; reflexivity).
  unfold Ivl.half_pi_checked in Hc.
  pose proof (cos_sound 6 _ _ (point_sound Ivl.half_pi_lo)) as Hlo.
  pose proof (cos_sound 6 _ _ (point_sound Ivl.half_pi_hi)) as Hhi.
  destruct (Ivl.cos 6 (Some (Ivl.half_pi_lo, Ivl.half_pi_lo))) as [[l1 h1]|];
    [|discriminate Hc].
  destruct (Ivl.cos 6 (Some (Ivl.half_pi_hi, Ivl.half_pi_hi))) as [[l2 h2]|];
    [|discriminate Hc].
  apply andb_prop in Hc. destruct Hc as [Hc H4].
  apply andb_prop in Hc. destruct Hc as [Hc H3].
  apply andb_prop in Hc. destruct Hc as [H1 H2].
  apply Z.ltb_lt in H1, H2. apply Z.leb_le in H3, H4.
  apply IZR_lt in H1, H2. apply IZR_le in H3, H4. rewrite mult_IZR in H4.
  unfold Ivl.contains in Hlo, Hhi.
  pose proof scale_pos as HS.
  assert (Hlt : IZR Ivl.half_pi_lo <= IZR Ivl.half_pi_hi) by (apply IZR_le; discriminate).
  set (a := IZR Ivl.half_pi_lo / IZR Ivl.scale) in *.
  set (b := IZR Ivl.half_pi_hi / IZR Ivl.scale) in *.
  assert (Ea : a * IZR Ivl.scale = IZR Ivl.half_pi_lo) by (unfold a; field; lra).
  assert (Eb : b * IZR Ivl.scale = IZR Ivl.half_pi_hi) by (unfold b; field; lra).
  assert (Ha : 0 <= a <= 2) by (split; nra).
  assert (Hb : 0 <= b <= 2) by (split; nra).
  assert (Hca : 0 < cos a) by nra.
  assert (Hcb : cos b < 0) by nra.
  destruct (half_pi_between a b Ha Hb Hca Hcb) as [Hl Hu].
  unfold Ivl.contains, Ivl.half_pi. split; nra.
Qed.

Lemma pi_sound : Ivl.contains Ivl.pi PI.
Proof.
  replace PI with (2 * (PI / 2)) by field.
  unfold Ivl.pi. apply mul_sound; [apply of_Z_sound | apply half_pi_sound].
Qed.

(** ** The simulation core on enclosures *)

Create HintDb enclose.

#[local] Hint Resolve add_sound sub_sound mul_sound div_sound divz_sound
  max_sound min_sound sin_sound cos_sound of_Z_sound pi_sound : enclose.

Lemma PARAMS_enclosed : encloses_params Box.PARAMS PARAMS.
Proof.
  unfold encloses_params; cbn [Box.PARAMS PARAMS Box.M Box.m Box.l Box.g Box.dt
                                 Box.friction M m l g dt friction].
  refine (conj _ (conj _ (conj _ (conj _ (conj _ _))))).
  - exact (of_Q_sound 10 10).
  - exact (of_Q_sound 1 10).
  - exact (of_Q_sound 5 10).
  - exact (of_Q_sound 981 100).
  - exact (of_Q_sound 1 100).
  - exact (of_Q_sound 1 10).
Qed.

Lemma computeDerivatives_enclosed :
  forall (BP : Box.Params) (P : Params) (B : Box.Mech) (y : Mech) (U : Ivl.t) (u : R),
    encloses_params BP P -> encloses_mech B y -> Ivl.contains U u ->
    encloses_derivatives (Box.computeDerivatives BP B U) (computeDerivatives P y u).
Proof.
  intros BP P B y U u (HM & Hm & Hl & Hg & Hdt & Hf) (Hx & Hv & Ha & Hw) HU.
  unfold encloses_derivatives, Box.computeDerivatives, computeDerivatives.
  cbn [Box.dxDot Box.dxDDot Box.dthetaDot Box.dthetaDDot
       D.xDot D.xDDot D.thetaDot D.thetaDDot].
  refine (conj _ (conj _ (conj _ _))); auto 20 with enclose.
Qed.

Lemma computeControl_enclosed :
  forall (BG : Box.Gains) (G : Gains) (B : Box.State) (s : State),
    encloses_gains BG G -> encloses_state B s ->
    Ivl.contains (Box.computeControl BG B) (computeControl G s).
Proof.
  intros BG G B s (Hp & Hi & Hd) ((Hx & Hv & Ha & Hw) & Hint & Ht).
  unfold Box.computeControl, computeControl; cbv zeta.
  auto 20 with enclose.
Qed.

Lemma half_advance_sound :
  forall (Y K H : Ivl.t) (y k h : R),
    Ivl.contains Y y -> Ivl.contains K k -> Ivl.contains H h ->
    Ivl.contains (Box.half_advance Y K H) (y + k * h / 2).
Proof. intros. unfold Box.half_advance. auto with enclose. Qed.

Lemma full_advance_sound :
  forall (Y K H : Ivl.t) (y k h : R),
    Ivl.contains Y y -> Ivl.contains K k -> Ivl.contains H h ->
    Ivl.contains (Box.full_advance Y K H) (y + k * h).
Proof. intros. unfold Box.full_advance. auto with enclose. Qed.

Lemma combine_sound :
  forall (Y K1 K2 K3 K4 H : Ivl.t) (y k1 k2 k3 k4 h : R),
    Ivl.contains Y y -> Ivl.contains K1 k1 -> Ivl.contains K2 k2 ->
    Ivl.contains K3 k3 -> Ivl.contains K4 k4 -> Ivl.contains H h ->
    Ivl.contains (Box.combine Y K1 K2 K3 K4 H)
                 (y + (k1 + 2 * k2 + 2 * k3 + k4) * h / 6).
Proof. intros. unfold Box.combine. auto 20 with enclose. Qed.

Lemma rk4Step_enclosed :
  forall (BP : Box.Params) (P : Params) (B : Box.State) (s : State)
         (U H : Ivl.t) (u h : R),
    encloses_params BP P -> encloses_state B s ->
    Ivl.contains U u -> Ivl.contains H h ->
    encloses_state (Box.rk4Step BP B U H) (rk4Step P s u h).
Proof.
  intros BP P B s U H u h HP (Hm & Hi & Ht) HU HH.
  pose proof Hm as (Hx & Hv & Ha & Hw).
  unfold Box.rk4Step, rk4Step; cbv zeta.
  pose proof (computeDerivatives_enclosed BP P _ _ U u HP Hm HU) as E1.
  set (k1 := computeDerivatives P (mech s) u) in *.
  set (K1 := Box.computeDerivatives BP (Box.mech B) U) in *.
  destruct E1 as (E1a & E1b & E1c & E1d).
  assert (Hm2 : encloses_mech
                  {| Box.x := Box.half_advance (Box.x (Box.mech B)) (Box.dxDot K1) H;
                     Box.xDot := Box.half_advance (Box.xDot (Box.mech B)) (Box.dxDDot K1) H;
                     Box.theta := Box.half_advance (Box.theta (Box.mech B)) (Box.dthetaDot K1) H;
                     Box.thetaDot := Box.half_advance (Box.thetaDot (Box.mech B)) (Box.dthetaDDot K1) H |}
                  {| x := x s + D.xDot k1 * h / 2;
                     xDot := xDot s + D.xDDot k1 * h / 2;
                     theta := theta s + D.thetaDot k1 * h / 2;
                     thetaDot := thetaDot s + D.thetaDDot k1 * h / 2 |}).
  { refine (conj _ (conj _ (conj _ _))); apply half_advance_sound; assumption. }
  pose proof (computeDerivatives_enclosed BP P _ _ U u HP Hm2 HU) as E2.
  match type of E2 with
  | encloses_derivatives ?K ?k => set (K2 := K) in *; set (k2 := k) in *
  end.
  destruct E2 as (E2a & E2b & E2c & E2d).
  assert (Hm3 : encloses_mech
                  {| Box.x := Box.half_advance (Box.x (Box.mech B)) (Box.dxDot K2) H;
                     Box.xDot := Box.half_advance (Box.xDot (Box.mech B)) (Box.dxDDot K2) H;
                     Box.theta := Box.half_advance (Box.theta (Box.mech B)) (Box.dthetaDot K2) H;
                     Box.thetaDot := Box.half_advance (Box.thetaDot (Box.mech B)) (Box.dthetaDDot K2) H |}
                  {| x := x s + D.xDot k2 * h / 2;
                     xDot := xDot s + D.xDDot k2 * h / 2;
                     theta := theta s + D.thetaDot k2 * h / 2;
                     thetaDot := thetaDot s + D.thetaDDot k2 * h / 2 |}).
  { refine (conj _ (conj _ (conj _ _))); apply half_advance_sound; assumption. }
  pose proof (computeDerivatives_enclosed BP P _ _ U u HP Hm3 HU) as E3.
  match type of E3 with
  | encloses_derivatives ?K ?k => set (K3 := K) in *; set (k3 := k) in *
  end.
  destruct E3 as (E3a & E3b & E3c & E3d).
  assert (Hm4 : encloses_mech
                  {| Box.x := Box.full_advance (Box.x (Box.mech B)) (Box.dxDot K3) H;
                     Box.xDot := Box.full_advance (Box.xDot (Box.mech B)) (Box.dxDDot K3) H;
                     Box.theta := Box.full_advance (Box.theta (Box.mech B)) (Box.dthetaDot K3) H;
                     Box.thetaDot := Box.full_advance (Box.thetaDot (Box.mech B)) (Box.dthetaDDot K3) H |}
                  {| x := x s + D.xDot k3 * h;
                     xDot := xDot s + D.xDDot k3 * h;
                     theta := theta s + D.thetaDot k3 * h;
                     thetaDot := thetaDot s + D.thetaDDot k3 * h |}).
  { refine (conj _ (conj _ (conj _ _))); apply full_advance_sound; assumption. }
  pose proof (computeDerivatives_enclosed BP P _ _ U u HP Hm4 HU) as E4.
  match type of E4 with
  | encloses_derivatives ?K ?k => set (K4 := K) in *; set (k4 := k) in *
  end.
  destruct E4 as (E4a & E4b & E4c & E4d).
  refine (conj (conj _ (conj _ (conj _ _))) (conj _ _));
    cbn [Box.mech Box.x Box.xDot Box.theta Box.thetaDot Box.integral Box.time
         mech x xDot theta thetaDot integral time].
  - apply combine_sound; assumption.
  - apply combine_sound; assumption.
  - apply combine_sound; assumption.
  - apply combine_sound; assumption.
  - auto with enclose.
  - auto with enclose.
Qed.

Lemma controlStep_enclosed :
  forall (BG : Box.Gains) (G : Gains) (B : Box.State) (s : State),
    encloses_gains BG G -> encloses_state B s ->
    encloses_state (Box.controlStep BG B) (controlStep G s).
Proof.
  intros BG G B s HG Hs. unfold Box.controlStep, controlStep.
  apply rk4Step_enclosed.
  - exact PARAMS_enclosed.
  - exact Hs.
  - apply computeControl_enclosed; assumption.
  - apply PARAMS_enclosed.
Qed.

Lemma gains0_enclosed : encloses_gains Box.gains0 gains0.
Proof.
  refine (conj _ (conj _ _)); cbn [Box.gains0 gains0 Box.Kp Box.Ki Box.Kd Kp Ki Kd];
    apply of_Z_sound.
Qed.

Lemma state0_enclosed : encloses_state Box.state0 state0.
Proof.
  refine (conj (conj _ (conj _ (conj _ _))) (conj _ _));
    cbn [Box.state0 state0 Box.mech Box.x Box.xDot Box.theta Box.thetaDot
         Box.integral Box.time mech x xDot theta thetaDot integral time];
    auto with enclose.
Qed.

Lemma within_sound :
  forall (a : Ivl.t) (n d : Z) (r : R),
    (0 < d)%Z -> Ivl.contains a r -> Ivl.within a n d = true ->
    Rabs r < IZR n / IZR d.
Proof.
  intros [[al ah]|] n d r Hd Ha Hw; [|discriminate Hw].
  cbn [Ivl.within] in Hw. apply andb_prop in Hw. destruct Hw as [H1 H2].
  apply Z.ltb_lt in H1, H2. apply IZR_lt in H1, H2, Hd.
  rewrite !mult_IZR in H1, H2. rewrite opp_IZR in H1.
  unfold Ivl.contains in Ha. pose proof scale_pos as HS.
  assert (Hdl : IZR d * IZR al <= IZR d * (r * IZR Ivl.scale))
    by (apply Rmult_le_compat_l; lra).
  assert (Hdh : IZR d * (r * IZR Ivl.scale) <= IZR d * IZR ah)
    by (apply Rmult_le_compat_l; lra).
  assert (Hlo : - IZR n < IZR d * r).
  { apply Rmult_lt_reg_r with (IZR Ivl.scale); [exact HS|]. lra. }
  assert (Hhi : IZR d * r < IZR n).
  { apply Rmult_lt_reg_r with (IZR Ivl.scale); [exact HS|]. lra. }
  assert (Hn : IZR n / IZR d * IZR d = IZR n) by (field; lra).
  apply Rabs_def1.
  - apply Rmult_lt_reg_r with (IZR d); [exact Hd|]. lra.
  - apply Rmult_lt_reg_r with (IZR d); [exact Hd|]. lra.
Qed.

Lemma ok_sound :
  forall (B : Box.State) (s : State),
    encloses_state B s -> Box.ok B = true ->
    Rabs (theta s) < 3 / 2 /\ Rabs (x s) < 5 / 2.
Proof.
  intros B s ((Hx & _ & Ha & _) & _) Hok.
  unfold Box.ok in Hok. apply andb_prop in Hok. destruct Hok as [H1 H2].
  split.
  - apply (within_sound _ 3 2 _ ltac:(lia) Ha H1).
  - apply (within_sound _ 5 2 _ ltac:(lia) Hx H2).
Qed.

Lemma safe_sound :
  forall (BG : Box.Gains) (G : Gains),
    encloses_gains BG G ->
    forall (n : nat) (B : Box.State) (s : State),
      encloses_state B s -> Box.safe BG n B = true ->
      forall k : nat,
        (k <= n)%nat ->
        Rabs (theta (Nat.iter k (controlStep G) s)) < 3 / 2 /\
        Rabs (x (Nat.iter k (controlStep G) s)) < 5 / 2.
Proof.
  intros BG G HG. induction n as [|n IH]; intros B s Hs Hsafe k Hk;
    cbn [Box.safe] in Hsafe; apply andb_prop in Hsafe; destruct Hsafe as [Hok Hrest].
  - replace k with 0%nat by lia. cbn [Nat.iter nat_rect]. apply (ok_sound B s Hs Hok).
  - destruct k as [|k].
    + cbn [Nat.iter nat_rect]. apply (ok_sound B s Hs Hok).
    + rewrite Nat.iter_succ_r.
      apply (IH (Box.controlStep BG B) (controlStep G s)).
      * apply controlStep_enclosed; assumption.
      * exact Hrest.
      * lia.
Qed.

(** The enclosures of the hundred steps stay inside the bounds. *)
Lemma stable_run_checked : Box.safe Box.gains0 100 Box.state0 = true.
Proof. vm_compute. reflexivity. Qed.

(** ** The stable run *)

Lemma finishTick_upright :
  forall d : Driver,
    isRunning d = true ->
    Rabs (x (state d)) <= 2.5 -> Rabs (theta (state d)) <= PI / 2 ->
    isRunning (finishTick d) = true /\
    frames (finishTick d) = frames d ++ [nextHandle d] /\
    gains (finishTick d) = gains d /\
    state (finishTick d) = state d.
Proof.
  intros d Hrun Hx Ha.
  unfold finishTick; cbv zeta.
  rewrite (boundCart_inside _ Hx).
  unfold checkFallen. cbn [set_state state].
  destruct (Rgt_dec (Rabs (theta (state d))) (PI / 2)) as [Hgt|_]; [lra|].
  unfold reschedule. cbn [show isRunning set_state]. rewrite Hrun.
  cbn [requestAnimationFrame isRunning frames gains state].
  split; [exact Hrun|]. split; [reflexivity|]. split; reflexivity.
Qed.

Lemma run_snoc :
  forall (evs : list Event) (e : Event) (d : Driver),
    run (evs ++ [e]) d = handle e (run evs d).
Proof.
  intros evs e d. unfold run. rewrite fold_left_app. reflexivity.
Qed.

(** While the steps stay inside the bounds, the frames of a started run
    follow the loop two steps at a time and the run goes on. *)
Lemma frames_follow_steps :
  forall (G : Gains) (s : State) (d : Driver) (n : nat),
    isRunning d = true -> frames d <> [] -> gains d = G -> state d = s ->
    (forall j : nat,
        (j <= 2 * n)%nat ->
        Rabs (theta (Nat.iter j (controlStep G) s)) < PI / 2 /\
        Rabs (x (Nat.iter j (controlStep G) s)) < 5 / 2) ->
    forall k : nat,
      (k <= n)%nat ->
      let d' := run (repeat Frame k) d in
      isRunning d' = true /\ frames d' <> [] /\ gains d' = G /\
      state d' = Nat.iter (2 * k) (controlStep G) s.
Proof.
  intros G s d n Hrun Hfr HG Hs Hsafe.
  induction k as [|k IH]; intros Hk d'.
  - unfold d'. cbn [repeat run fold_left Nat.mul Nat.iter nat_rect].
    repeat split; assumption.
  - destruct (IH ltac:(lia)) as (Irun & Ifr & IG & Is).
    unfold d'. replace (repeat Frame (S k)) with (repeat Frame k ++ [Frame])
      by (symmetry; apply (repeat_cons k Frame)).
    rewrite run_snoc.
    set (e := run (repeat Frame k) d) in *.
    destruct (frames e) as [|h q] eqn:Hq; [contradiction|].
    rewrite (onFrame_running e h q Hq Irun).
    assert (Hst : state (physics (set_frames e q))
                  = Nat.iter (2 * S k) (controlStep G) s).
    { rewrite physics_set_frames, physics_state, IG, Is.
      replace (2 * S k)%nat with (S (S (2 * k))) by lia. reflexivity. }
    destruct (Hsafe (2 * S k)%nat ltac:(lia)) as [Ha Hx].
    rewrite <- Hst in Ha, Hx.
    destruct (finishTick_upright (physics (set_frames e q)) Irun) as (R1 & R2 & R3 & R4);
      [lra | lra |].
    split; [exact R1|]. split.
    + rewrite R2. intros Hnil. apply app_eq_nil in Hnil. destruct Hnil as [_ Hnil].
      discriminate Hnil.
    + split; [rewrite R3; exact IG|]. rewrite R4. exact Hst.
Qed.

(** C9: from [theta = 10 degrees] and everything else at zero, with the
    gains [Kp = 50], [Ki = 0], [Kd = 20], each of the first hundred
    steps of the controller-then-RK4 loop at [dt = 0.01] leaves
    [|theta| < PI/2] (indeed [|theta| < 3/2], with the cart inside the
    track).  This is the state and these are the gains the page starts
    with: after a start click, the first fifty frames make these hundred
    steps and none of them stops the run. *)
Theorem stable_run :
  state boot = state0 /\ gains boot = gains0 /\ dt PARAMS = 0.01 /\
  (forall n : nat,
      (n <= 100)%nat ->
      Rabs (theta (Nat.iter n (controlStep gains0) state0)) < PI / 2 /\
      Rabs (theta (Nat.iter n (controlStep gains0) state0)) < 3 / 2 /\
      Rabs (x (Nat.iter n (controlStep gains0) state0)) < 5 / 2) /\
  (forall k : nat,
      (k <= 50)%nat ->
      let d := run (StartClick :: repeat Frame k) boot in
      isRunning d = true /\
      state d = Nat.iter (2 * k) (controlStep gains0) state0).
Proof.
  assert (Hsafe : forall n : nat,
             (n <= 100)%nat ->
             Rabs (theta (Nat.iter n (controlStep gains0) state0)) < 3 / 2 /\
             Rabs (x (Nat.iter n (controlStep gains0) state0)) < 5 / 2).
  { intros n Hn.
    exact (safe_sound _ _ gains0_enclosed 100 _ _ state0_enclosed
                      stable_run_checked n Hn). }
  pose proof PI2_3_2 as Hpi.
  split; [reflexivity|]. split; [reflexivity|]. split; [reflexivity|].
  split.
  - intros n Hn. destruct (Hsafe n Hn) as [Ha Hx].
    split; [lra|]. split; assumption.
  - intros k Hk d.
    assert (Hd : d = run (repeat Frame k) (handle StartClick boot)) by reflexivity.
    destruct (frames_follow_steps gains0 state0 (handle StartClick boot) 50)
      with (k := k) as (R1 & _ & _ & R4); try reflexivity; try exact Hk.
    + discriminate.
    + intros j Hj. destruct (Hsafe j ltac:(lia)) as [Ha Hx]. split; [lra | exact Hx].
    + rewrite Hd. split; assumption.
Qed.

Lemma stable_run_witness :
  (100 <= 100)%nat /\
  Rabs (theta (Nat.iter 100 (controlStep gains0) state0)) < PI / 2 /\
  isRunning (run (StartClick :: repeat Frame 50) boot) = true.
Proof.
  destruct stable_run as (_ & _ & _ & Hsteps & Hframes).
  split; [lia|]. split.
  - apply (Hsteps 100%nat). lia.
  - apply (Hframes 50%nat). lia.
Defined.

(** * Further properties of the script *)

(** ** The equations of motion *)

Lemma coupled_equations :
  forall (P : Params) (y : Mech) (u : R),
    0 < M P -> 0 < m P -> 0 < l P ->
    let s := sin (theta y) in
    let c := cos (theta y) in
    let k := computeDerivatives P y u in
    (M P + m P) * D.xDDot k + m P * l P * c * D.thetaDDot k
      - m P * l P * thetaDot y * thetaDot y * s
    = u - friction P * xDot y /\
    l P * D.thetaDDot k + c * D.xDDot k = g P * s /\
    D.xDDot k * (M P + m P - m P * c * c)
    = u - friction P * xDot y + m P * l P * thetaDot y * thetaDot y * s
      - m P * g P * s * c.
Proof.
  intros P y u HM Hm Hl s c k.
  pose proof (denom_lower_bound P (theta y) (Rlt_le _ _ Hm)) as Hd.
  fold c in Hd.
  set (denom := M P + m P - m P * c * c) in *.
  assert (Hd0 : denom <> 0) by lra.
  assert (Hl0 : l P <> 0) by lra.
  assert (Ex : D.xDDot k * denom
               = u - friction P * xDot y + m P * l P * thetaDot y * thetaDot y * s
                 - m P * g P * s * c).
  { unfold k, computeDerivatives; cbn [D.xDDot]. fold s c denom. field. exact Hd0. }
  assert (Et : D.thetaDDot k * (l P * denom)
               = (M P + m P) * g P * s
                 - c * (u - friction P * xDot y
                        + m P * l P * thetaDot y * thetaDot y * s)).
  { unfold k, computeDerivatives; cbn [D.thetaDDot]. fold s c denom.
    field. split; assumption. }
  assert (E2 : l P * D.thetaDDot k + c * D.xDDot k = g P * s).
  { apply Rmult_eq_reg_r with denom; [|exact Hd0].
    replace ((l P * D.thetaDDot k + c * D.xDDot k) * denom)
      with (D.thetaDDot k * (l P * denom) + c * (D.xDDot k * denom)) by ring.
    rewrite Ex, Et. unfold denom. ring. }
  split; [|split; [exact E2 | exact Ex]].
  replace ((M P + m P) * D.xDDot k + m P * l P * c * D.thetaDDot k)
    with (D.xDDot k * denom + m P * c * (l P * D.thetaDDot k + c * D.xDDot k))
    by (unfold denom; ring).
  rewrite Ex, E2. ring.
Qed.

(** X1: with positive masses and length, the two formulas of
    [computeDerivatives] for the accelerations, read over the real
    numbers (exact arithmetic, no rounding), solve the coupled equations
    of the cart and the pendulum,
    [(M+m)*xDDot + m*l*cos(theta)*thetaDDot - m*l*thetaDot^2*sin(theta)
     = u - friction*xDot] and
    [l*thetaDDot + cos(theta)*xDDot = g*sin(theta)],
    and are their only solution. *)
Theorem accelerations_solve_coupled_equations :
  forall (P : Params) (y : Mech) (u : R),
    0 < M P -> 0 < m P -> 0 < l P ->
    let s := sin (theta y) in
    let c := cos (theta y) in
    let k := computeDerivatives P y u in
    (M P + m P) * D.xDDot k + m P * l P * c * D.thetaDDot k
      - m P * l P * thetaDot y * thetaDot y * s
    = u - friction P * xDot y /\
    l P * D.thetaDDot k + c * D.xDDot k = g P * s /\
    (forall a b : R,
        (M P + m P) * a + m P * l P * c * b - m P * l P * thetaDot y * thetaDot y * s
        = u - friction P * xDot y ->
        l P * b + c * a = g P * s ->
        a = D.xDDot k /\ b = D.thetaDDot k).
Proof.
  intros P y u HM Hm Hl s c k.
  destruct (coupled_equations P y u HM Hm Hl) as (E1 & E2 & Ex).
  fold s c k in E1, E2, Ex.
  pose proof (denom_lower_bound P (theta y) (Rlt_le _ _ Hm)) as Hd.
  fold c in Hd.
  set (denom := M P + m P - m P * c * c) in *.
  assert (Hd0 : denom <> 0) by lra.
  assert (Hl0 : l P <> 0) by lra.
  split; [exact E1|]. split; [exact E2|].
  intros a b Ha Hb.
  assert (Ea : a * denom = D.xDDot k * denom).
  { rewrite Ex.
    replace (a * denom)
      with ((M P + m P) * a + m P * l P * c * b - m P * c * (l P * b + c * a))
      by (unfold denom; ring).
    rewrite Hb.
    replace ((M P + m P) * a + m P * l P * c * b)
      with (u - friction P * xDot y + m P * l P * thetaDot y * thetaDot y * s)
      by lra.
    ring. }
  assert (Ha' : a = D.xDDot k) by (apply Rmult_eq_reg_r with denom; assumption).
  split; [exact Ha'|].
  apply Rmult_eq_reg_l with (l P); [|exact Hl0].
  subst a. lra.
Qed.

Lemma accelerations_solve_coupled_equations_witness :
  let y := {| x := 0; xDot := 1; theta := 1; thetaDot := 2 |} in
  let k := computeDerivatives PARAMS y 3 in
  l PARAMS * D.thetaDDot k + cos (theta y) * D.xDDot k = g PARAMS * sin (theta y).
Proof.
  intros y k.
  assert (HM : 0 < M PARAMS) by (simpl; lra).
  assert (Hm : 0 < m PARAMS) by (simpl; lra).
  assert (Hl : 0 < l PARAMS) by (simpl; lra).
  exact (proj1 (proj2 (accelerations_solve_coupled_equations PARAMS y 3 HM Hm Hl))).
Defined.

Lemma affine_derivative :
  forall c a t : R, derivable_pt_lim (fun tau => c + a * tau) t a.
Proof.
  intros c a t.
  apply (derivable_pt_lim_ext (fct_cte c + mult_real_fct a id)%F);
    [intros z; reflexivity|].
  replace a with (0 + a * 1) at 2 by ring.
  apply derivable_pt_lim_plus;
    [apply derivable_pt_lim_const
    |apply derivable_pt_lim_scal, derivable_pt_lim_id].
Qed.

(** X2: along any motion that follows the equations of motion at time
    [t] (the derivatives of [xDot], [theta] and [thetaDot] are those
    [computeDerivatives] returns), the total energy of cart and pendulum
    changes at the rate [xDot * (u - friction * xDot)]: the power of the
    applied force less the friction loss.  Without force and friction
    the energy is conserved. *)
Theorem energy_balance :
  forall (P : Params) (traj : R -> Mech) (u t : R),
    0 < M P -> 0 < m P -> 0 < l P ->
    let k := computeDerivatives P (traj t) u in
    derivable_pt_lim (fun tau => xDot (traj tau)) t (D.xDDot k) ->
    derivable_pt_lim (fun tau => theta (traj tau)) t (D.thetaDot k) ->
    derivable_pt_lim (fun tau => thetaDot (traj tau)) t (D.thetaDDot k) ->
    derivable_pt_lim (fun tau => energy P (traj tau)) t
                     (xDot (traj t) * (u - friction P * xDot (traj t))).
Proof.
  intros P traj u t HM Hm Hl k Hv Ha Hw.
  destruct (coupled_equations P (traj t) u HM Hm Hl) as (E1 & E2 & _).
  fold k in E1, E2.
  set (fv := fun tau => xDot (traj tau)) in *.
  set (fa := fun tau => theta (traj tau)) in *.
  set (fw := fun tau => thetaDot (traj tau)) in *.
  assert (Hc : derivable_pt_lim (comp cos fa) t (- sin (fa t) * D.thetaDot k)).
  { apply derivable_pt_lim_comp; [exact Ha | apply derivable_pt_lim_cos]. }
  pose proof (derivable_pt_lim_mult _ _ _ _ _ Hv Hv) as Hvv.
  pose proof (derivable_pt_lim_mult _ _ _ _ _ Hv Hw) as Hvw.
  pose proof (derivable_pt_lim_mult _ _ _ _ _ Hvw Hc) as Hvwc.
  pose proof (derivable_pt_lim_mult _ _ _ _ _ Hw Hw) as Hww.
  pose proof (derivable_pt_lim_scal _ ((M P + m P) / 2) _ _ Hvv) as T1.
  pose proof (derivable_pt_lim_scal _ (m P * l P) _ _ Hvwc) as T2.
  pose proof (derivable_pt_lim_scal _ (m P * l P * l P / 2) _ _ Hww) as T3.
  pose proof (derivable_pt_lim_scal _ (m P * g P * l P) _ _ Hc) as T4.
  pose proof (derivable_pt_lim_plus _ _ _ _ _
                (derivable_pt_lim_plus _ _ _ _ _
                   (derivable_pt_lim_plus _ _ _ _ _ T1 T2) T3) T4) as HE.
  match type of HE with
  | derivable_pt_lim ?f _ ?L =>
      replace L with (xDot (traj t) * (u - friction P * xDot (traj t))) in HE;
        [apply (derivable_pt_lim_ext f); [|exact HE]|]
  end.
  - intros z. unfold energy, plus_fct, mult_fct, mult_real_fct, comp, fv, fa, fw.
    field.
  - unfold mult_fct, comp, fv, fa, fw.
    change (D.thetaDot k) with (thetaDot (traj t)).
    set (c := cos (theta (traj t))) in *. set (s := sin (theta (traj t))) in *.
    set (v := xDot (traj t)) in *. set (w := thetaDot (traj t)) in *.
    replace ((M P + m P) / 2 * (D.xDDot k * v + v * D.xDDot k)
             + m P * l P * ((D.xDDot k * w + v * D.thetaDDot k) * c
                            + v * w * (- s * w))
             + m P * l P * l P / 2 * (D.thetaDDot k * w + w * D.thetaDDot k)
             + m P * g P * l P * (- s * w))
      with (v * ((M P + m P) * D.xDDot k + m P * l P * c * D.thetaDDot k
                 - m P * l P * w * w * s)
            + m P * l P * w * (l P * D.thetaDDot k + c * D.xDDot k - g P * s))
      by field.
    rewrite E1, E2. ring.
Qed.

Lemma energy_balance_witness :
  steady moving (computeDerivatives PARAMS moving 3) 0 = moving /\
  derivable_pt_lim
    (fun tau => energy PARAMS (steady moving (computeDerivatives PARAMS moving 3) tau))
    0 (1 * (3 - 0.1 * 1)).
Proof.
  set (k := computeDerivatives PARAMS moving 3).
  assert (H0 : steady moving k 0 = moving).
  { unfold steady, moving; cbn [x xDot theta thetaDot]. f_equal; ring. }
  split; [exact H0|].
  assert (HM : 0 < M PARAMS) by (simpl; lra).
  assert (Hm : 0 < m PARAMS) by (simpl; lra).
  assert (Hl : 0 < l PARAMS) by (simpl; lra).
  pose proof (energy_balance PARAMS (steady moving k) 3 0 HM Hm Hl) as H.
  cbv zeta in H. rewrite H0 in H. fold k in H.
  apply H.
  - apply (affine_derivative (xDot moving) (D.xDDot k) 0).
  - apply (affine_derivative (theta moving) (thetaDot moving) 0).
  - apply (affine_derivative (thetaDot moving) (D.thetaDDot k) 0).
Defined.

(** ** Symmetries of the loop *)

Lemma state_eq :
  forall a b : State,
    mech a = mech b -> integral a = integral b -> time a = time b -> a = b.
Proof.
  intros [ma ia ta] [mb ib tb]; cbn. intros -> -> ->. reflexivity.
Qed.

Lemma rk4Step_mech :
  forall (P : Params) (st : State) (u h : R),
    mech (rk4Step P st u h) = Spec.rk4 (eom_field P u) (mech st) h.
Proof.
  intros P st u h. unfold Spec.rk4.
  rewrite <- (half_advance_vadd st (eom_field P u st) h).
  rewrite <- (half_advance_vadd st (eom_field P u _) h).
  rewrite <- (full_advance_vadd st (eom_field P u _) h).
  unfold rk4Step, eom_field; cbn [mech x xDot theta thetaDot].
  set (k1 := computeDerivatives P st u).
  set (k2 := computeDerivatives P _ u).
  set (k3 := computeDerivatives P _ u).
  set (k4 := computeDerivatives P _ u).
  unfold Spec.vadd, Spec.vscale; cbn [x xDot theta thetaDot].
  f_equal; field.
Qed.

Lemma rk4Step_integral :
  forall (P : Params) (st : State) (u h : R),
    integral (rk4Step P st u h) = integral st + theta st * h.
Proof. intros P st u h. reflexivity. Qed.

Lemma rk4Step_time :
  forall (P : Params) (st : State) (u h : R),
    time (rk4Step P st u h) = time st + h.
Proof. intros P st u h. reflexivity. Qed.

(** A Runge-Kutta step commutes with an affine change of coordinates
    [T], of linear part [L], that the vector field commutes with. *)
Lemma rk4_equivariant :
  forall (T L : Mech -> Mech) (f f' : Mech -> Mech),
    (forall y a, Spec.vadd (T y) (L a) = T (Spec.vadd y a)) ->
    (forall c a, L (Spec.vscale c a) = Spec.vscale c (L a)) ->
    (forall a b, L (Spec.vadd a b) = Spec.vadd (L a) (L b)) ->
    (forall y, f' (T y) = L (f y)) ->
    forall (y : Mech) (h : R), Spec.rk4 f' (T y) h = T (Spec.rk4 f y h).
Proof.
  intros T L f f' Hadd Hscale Hlin Hf y h. unfold Spec.rk4.
  rewrite (Hf y), <- (Hscale (h / 2)), (Hadd y).
  rewrite (Hf _), <- (Hscale (h / 2)), (Hadd y).
  rewrite (Hf _), <- (Hscale h), (Hadd y).
  rewrite (Hf _).
  rewrite <- !Hscale, <- !Hlin, <- Hscale, Hadd. reflexivity.
Qed.

Lemma eom_field_mirror :
  forall (P : Params) (u : R) (y : Mech),
    eom_field P (- u) (mirrorMech y) = mirrorMech (eom_field P u y).
Proof.
  intros P u y. unfold eom_field, computeDerivatives, mirrorMech.
  cbn [x xDot theta thetaDot D.xDot D.xDDot D.thetaDot D.thetaDDot].
  rewrite sin_neg, cos_neg. f_equal; unfold Rdiv; ring.
Qed.

Lemma computeControl_mirror :
  forall (G : Gains) (s : State),
    computeControl G (mirror s) = - computeControl G s.
Proof.
  intros G s. unfold computeControl; cbv zeta.
  cbn [mirror mirrorMech mech theta thetaDot integral].
  rewrite !clamp_max_min. unfold Spec.clamp.
  repeat (destruct Rlt_dec); lra.
Qed.

Lemma rk4Step_mirror :
  forall (P : Params) (s : State) (u h : R),
    rk4Step P (mirror s) (- u) h = mirror (rk4Step P s u h).
Proof.
  intros P s u h. apply state_eq.
  - rewrite rk4Step_mech.
    change (mech (mirror s)) with (mirrorMech (mech s)).
    change (mech (mirror (rk4Step P s u h)))
      with (mirrorMech (mech (rk4Step P s u h))).
    rewrite rk4Step_mech.
    apply (rk4_equivariant mirrorMech mirrorMech).
    + intros y a. unfold Spec.vadd, mirrorMech; cbn [x xDot theta thetaDot].
      f_equal; ring.
    + intros c a. unfold Spec.vscale, mirrorMech; cbn [x xDot theta thetaDot].
      f_equal; ring.
    + intros a b. unfold Spec.vadd, mirrorMech; cbn [x xDot theta thetaDot].
      f_equal; ring.
    + apply eom_field_mirror.
  - change (integral (mirror (rk4Step P s u h)))
      with (- integral (rk4Step P s u h)).
    rewrite !rk4Step_integral. cbn [mirror mirrorMech mech integral theta]. ring.
  - change (time (mirror (rk4Step P s u h))) with (time (rk4Step P s u h)).
    rewrite !rk4Step_time. reflexivity.
Qed.

Lemma controlStep_mirror :
  forall (G : Gains) (s : State),
    controlStep G (mirror s) = mirror (controlStep G s).
Proof.
  intros G s. unfold controlStep.
  rewrite computeControl_mirror. apply rk4Step_mirror.
Qed.

Lemma sign_opp : forall v : R, sign (- v) = - sign v.
Proof.
  intros v. unfold sign. repeat (destruct Rlt_dec); lra.
Qed.

Lemma boundCart_mirror :
  forall s : State, boundCart (mirror s) = mirror (boundCart s).
Proof.
  intros s. unfold boundCart. cbn [mirror mirrorMech mech x].
  rewrite Rabs_Ropp.
  destruct (Rgt_dec (Rabs (x s)) 2.5); [|reflexivity].
  apply state_eq; [|reflexivity|reflexivity].
  unfold mirror, mirrorMech; cbn [mech x xDot theta thetaDot].
  rewrite sign_opp. f_equal; ring.
Qed.

(** X3: the loop is left-right symmetric.  Mirroring the state ([x],
    [xDot], [theta], [thetaDot] and [integral] negated) negates the
    controller's force and commutes with any number of
    controller-then-RK4 steps and with the track clamp; the fall test
    does not see it. *)
Theorem mirror_symmetry :
  forall (G : Gains) (s : State) (n : nat),
    computeControl G (mirror s) = - computeControl G s /\
    Nat.iter n (controlStep G) (mirror s) = mirror (Nat.iter n (controlStep G) s) /\
    boundCart (mirror s) = mirror (boundCart s) /\
    Rabs (theta (mirror s)) = Rabs (theta s).
Proof.
  intros G s n.
  split; [apply computeControl_mirror|].
  split; [|split; [apply boundCart_mirror | apply Rabs_Ropp]].
  induction n as [|n IH]; [reflexivity|].
  cbn [Nat.iter nat_rect]. fold (Nat.iter n (controlStep G) (mirror s)).
  fold (Nat.iter n (controlStep G) s).
  rewrite IH. apply controlStep_mirror.
Qed.

Lemma controlStep_shift :
  forall (G : Gains) (c : R) (s : State),
    controlStep G (shift c s) = shift c (controlStep G s).
Proof.
  intros G c s. unfold controlStep.
  change (computeControl G (shift c s)) with (computeControl G s).
  set (u := computeControl G s).
  apply state_eq;
    [|change (integral (shift c (rk4Step PARAMS s u (dt PARAMS))))
        with (integral (rk4Step PARAMS s u (dt PARAMS)));
      rewrite !rk4Step_integral; reflexivity
     |change (time (shift c (rk4Step PARAMS s u (dt PARAMS))))
        with (time (rk4Step PARAMS s u (dt PARAMS)));
      rewrite !rk4Step_time; reflexivity].
  rewrite rk4Step_mech.
  change (mech (shift c (rk4Step PARAMS s u (dt PARAMS))))
    with ((fun y => {| x := x y + c; xDot := xDot y; theta := theta y;
                       thetaDot := thetaDot y |})
            (mech (rk4Step PARAMS s u (dt PARAMS)))).
  rewrite rk4Step_mech.
  apply (rk4_equivariant
           (fun y => {| x := x y + c; xDot := xDot y; theta := theta y;
                        thetaDot := thetaDot y |})
           (fun a => a)).
  - intros y a. unfold Spec.vadd; cbn [x xDot theta thetaDot]. f_equal; ring.
  - reflexivity.
  - reflexivity.
  - reflexivity.
Qed.

Lemma controlStep_iter_shift :
  forall (G : Gains) (c : R) (s : State) (n : nat),
    Nat.iter n (controlStep G) (shift c s) = shift c (Nat.iter n (controlStep G) s).
Proof.
  intros G c s n. induction n as [|n IH]; [reflexivity|].
  cbn [Nat.iter nat_rect]. fold (Nat.iter n (controlStep G) (shift c s)).
  fold (Nat.iter n (controlStep G) s).
  rewrite IH. apply controlStep_shift.
Qed.

(** X4: the physics never reads the cart position.  Two runs of the
    loop from states that differ in [x] only receive the same force at
    every step and agree at every step on [xDot], [theta], [thetaDot],
    [integral] and [time]. *)
Theorem position_is_never_read :
  forall (G : Gains) (a b : State) (n : nat),
    xDot a = xDot b -> theta a = theta b -> thetaDot a = thetaDot b ->
    integral a = integral b -> time a = time b ->
    let a' := Nat.iter n (controlStep G) a in
    let b' := Nat.iter n (controlStep G) b in
    computeControl G a' = computeControl G b' /\
    xDot a' = xDot b' /\ theta a' = theta b' /\ thetaDot a' = thetaDot b' /\
    integral a' = integral b' /\ time a' = time b'.
Proof.
  intros G a b n Hv Ha Hw Hi Ht a' b'.
  assert (Hb : b = shift (x b - x a) a).
  { destruct a as [[xa va aa wa] ia ta], b as [[xb vb ab wb] ib tb].
    cbn [mech x xDot theta thetaDot integral time] in *. subst.
    unfold shift; cbn [mech x xDot theta thetaDot integral time].
    f_equal. f_equal. ring. }
  assert (Hb' : b' = shift (x b - x a) a').
  { unfold b', a'. rewrite Hb at 1. apply controlStep_iter_shift. }
  rewrite Hb'. repeat split; reflexivity.
Qed.

Lemma position_is_never_read_witness :
  let a := {| mech := {| x := 0; xDot := 1; theta := 0.1; thetaDot := 0 |};
              integral := 0; time := 0 |} in
  let b := {| mech := {| x := 2; xDot := 1; theta := 0.1; thetaDot := 0 |};
              integral := 0; time := 0 |} in
  theta (Nat.iter 3 (controlStep gains0) a) = theta (Nat.iter 3 (controlStep gains0) b).
Proof.
  intros a b.
  exact (proj1 (proj2 (proj2
           (position_is_never_read gains0 a b 3
              eq_refl eq_refl eq_refl eq_refl eq_refl)))).
Defined.

(** ** The loop over many steps *)

Lemma controlStep_upright :
  forall (G : Gains) (s : State),
    theta s = 0 -> thetaDot s = 0 -> xDot s = 0 -> Ki G * integral s = 0 ->
    controlStep G s
    = {| mech := s; integral := integral s; time := time s + 0.01 |}.
Proof.
  intros G s Ha Hw Hv Hi. unfold controlStep.
  assert (Hu : computeControl G s = 0).
  { unfold computeControl; cbv zeta. rewrite Ha, Hw, Hi.
    replace (Kp G * 0 + 0 + Kd G * 0) with 0 by ring. apply clamp_zero. }
  rewrite Hu, rk4Step_equilibrium; [| rewrite Ha; apply sin_0 | exact Hw | exact Hv].
  apply state_eq; cbn [mech integral time].
  - reflexivity.
  - rewrite Ha. ring.
  - reflexivity.
Qed.

(** X5: a pendulum exactly upright and at rest on a resting cart stays
    there whatever the gains, provided the integral term contributes
    nothing ([Ki * integral = 0]): after any number of steps [x],
    [xDot], [theta], [thetaDot] and the integral are unchanged. *)
Theorem upright_rest_is_kept :
  forall (G : Gains) (s : State) (n : nat),
    theta s = 0 -> thetaDot s = 0 -> xDot s = 0 -> Ki G * integral s = 0 ->
    mech (Nat.iter n (controlStep G) s) = mech s /\
    integral (Nat.iter n (controlStep G) s) = integral s.
Proof.
  intros G s n Ha Hw Hv Hi. induction n as [|n [IHm IHi]].
  - split; reflexivity.
  - cbn [Nat.iter nat_rect]. fold (Nat.iter n (controlStep G) s).
    set (s' := Nat.iter n (controlStep G) s) in *.
    rewrite (controlStep_upright G s').
    + cbn [mech integral]. split; assumption.
    + change (theta (mech s') = 0). rewrite IHm. exact Ha.
    + change (thetaDot (mech s') = 0). rewrite IHm. exact Hw.
    + change (xDot (mech s') = 0). rewrite IHm. exact Hv.
    + rewrite IHi. exact Hi.
Qed.

Lemma upright_rest_is_kept_witness :
  let s := {| mech := {| x := 1; xDot := 0; theta := 0; thetaDot := 0 |};
              integral := 0; time := 0 |} in
  mech (Nat.iter 100 (controlStep gains0) s) = mech s.
Proof.
  intros s.
  assert (Hi : Ki gains0 * integral s = 0) by (cbn; ring).
  exact (proj1 (upright_rest_is_kept gains0 s 100 eq_refl eq_refl eq_refl Hi)).
Defined.

Lemma controlStep_without_integral :
  forall (G : Gains) (a b : State),
    Ki G = 0 -> mech a = mech b ->
    mech (controlStep G a) = mech (controlStep G b).
Proof.
  intros G a b HKi Hab. unfold controlStep.
  assert (Hu : computeControl G a = computeControl G b).
  { unfold computeControl; cbv zeta. rewrite HKi.
    change (theta a) with (theta (mech a)).
    change (thetaDot a) with (thetaDot (mech a)).
    rewrite Hab. f_equal. f_equal. ring. }
  rewrite !rk4Step_mech, Hu, Hab. reflexivity.
Qed.

(** X7: with [Ki = 0] (the default) the integral term is accumulated but
    never acts: two runs from states with the same [x], [xDot], [theta]
    and [thetaDot] have the same mechanical state after any number of
    steps, whatever their integrals and clocks. *)
Theorem integral_is_inert_without_Ki :
  forall (G : Gains) (a b : State) (n : nat),
    Ki G = 0 -> mech a = mech b ->
    mech (Nat.iter n (controlStep G) a) = mech (Nat.iter n (controlStep G) b).
Proof.
  intros G a b n HKi Hab. induction n as [|n IH].
  - exact Hab.
  - cbn [Nat.iter nat_rect]. fold (Nat.iter n (controlStep G) a).
    fold (Nat.iter n (controlStep G) b).
    apply controlStep_without_integral; assumption.
Qed.

Lemma integral_is_inert_without_Ki_witness :
  let a := {| mech := {| x := 0; xDot := 0; theta := 1; thetaDot := 0 |};
              integral := 0; time := 0 |} in
  let b := {| mech := {| x := 0; xDot := 0; theta := 1; thetaDot := 0 |};
              integral := 7; time := 3 |} in
  mech (Nat.iter 10 (controlStep gains0) a) = mech (Nat.iter 10 (controlStep gains0) b).
Proof.
  intros a b.
  apply (integral_is_inert_without_Ki gains0 a b 10); reflexivity.
Defined.

(** ** The driver *)

Lemma computeControl_range :
  forall (G : Gains) (s : State), -50 <= computeControl G s <= 50.
Proof.
  intros G s. unfold computeControl; cbv zeta. rewrite clamp_max_min.
  unfold Spec.clamp. repeat (destruct Rlt_dec); lra.
Qed.

(** The loop of [simulate] touches [state] and [controlInput] only. *)
Lemma physics_shell :
  forall d : Driver,
    isRunning (physics d) = isRunning d /\
    frames (physics d) = frames d /\
    nextHandle (physics d) = nextHandle d /\
    animationId (physics d) = animationId d /\
    startBtn (physics d) = startBtn d /\
    gains (physics d) = gains d /\
    initialTheta (physics d) = initialTheta d /\
    display (physics d) = display d /\
    controlInput (physics d) = computeControl (gains d) (controlStep (gains d) (state d)).
Proof.
  intros d. repeat split.
Qed.

(** The two ways a tick can end. *)
Lemma finishTick_cases :
  forall d : Driver,
    isRunning d = true ->
    state (finishTick d) = boundCart (state d) /\
    gains (finishTick d) = gains d /\
    initialTheta (finishTick d) = initialTheta d /\
    controlInput (finishTick d) = controlInput d /\
    display (finishTick d) = Some (boundCart (state d), controlInput d) /\
    ((Rabs (theta (state d)) > PI / 2 /\
      isRunning (finishTick d) = false /\
      startBtn (finishTick d) = "Start"%string /\
      frames (finishTick d) = frames d /\
      animationId (finishTick d) = animationId d /\
      nextHandle (finishTick d) = nextHandle d)
     \/
     (Rabs (theta (state d)) <= PI / 2 /\
      isRunning (finishTick d) = true /\
      startBtn (finishTick d) = startBtn d /\
      frames (finishTick d) = frames d ++ [nextHandle d] /\
      animationId (finishTick d) = Some (nextHandle d) /\
      nextHandle (finishTick d) = S (nextHandle d))).
Proof.
  intros d Hrun. unfold finishTick; cbv zeta.
  unfold checkFallen. cbn [set_state state].
  destruct (boundCart_others (state d)) as [-> _].
  destruct (Rgt_dec (Rabs (theta (state d))) (PI / 2)) as [Hgt|Hle].
  - unfold reschedule.
    cbn [show isRunning set_state set_startBtn set_isRunning state gains initialTheta
         controlInput display frames animationId nextHandle startBtn].
    repeat (split; [reflexivity|]). left. split; [exact Hgt|]. repeat split.
  - unfold reschedule. cbn [show isRunning set_state]. rewrite Hrun.
    cbn [requestAnimationFrame state gains initialTheta controlInput display
         frames animationId nextHandle startBtn isRunning].
    repeat (split; [reflexivity|]). right. split; [lra|].
    split; [exact Hrun|]. repeat split.
Qed.

Lemma cancelAnimationFrame_shell :
  forall d : Driver,
    state (cancelAnimationFrame d) = state d /\
    gains (cancelAnimationFrame d) = gains d /\
    initialTheta (cancelAnimationFrame d) = initialTheta d /\
    isRunning (cancelAnimationFrame d) = isRunning d /\
    animationId (cancelAnimationFrame d) = animationId d /\
    controlInput (cancelAnimationFrame d) = controlInput d /\
    startBtn (cancelAnimationFrame d) = startBtn d /\
    display (cancelAnimationFrame d) = display d /\
    nextHandle (cancelAnimationFrame d) = nextHandle d.
Proof.
  intros d. unfold cancelAnimationFrame.
  destruct (animationId d) as [h|] eqn:Hid; [destruct (Nat.eqb h 0)|];
    cbn; rewrite ?Hid; repeat split.
Qed.

(** Cancelling removes the pending request of a scheduled driver, and
    does nothing to an empty queue. *)
Lemma cancelAnimationFrame_frames :
  forall d : Driver,
    (frames d = [] \/
     exists h : nat, frames d = [h] /\ animationId d = Some h /\ (1 <= h)%nat) ->
    frames (cancelAnimationFrame d) = [].
Proof.
  intros d [Hnil|(h & Hfr & Hid & Hh)]; unfold cancelAnimationFrame.
  - destruct (animationId d) as [k|]; [destruct (Nat.eqb k 0)|];
      cbn [frames set_frames]; rewrite ?Hnil; reflexivity.
  - rewrite Hid. destruct (Nat.eqb_spec h 0) as [H0|_]; [lia|].
    cbn [frames set_frames]. rewrite Hfr. cbn [filter].
    rewrite Nat.eqb_refl. reflexivity.
Qed.

Lemma scheduled_frames :
  forall d : Driver,
    scheduled_once d ->
    frames d = [] \/
    exists h : nat, frames d = [h] /\ animationId d = Some h /\ (1 <= h)%nat.
Proof.
  intros d [_ H]. destruct (isRunning d).
  - destruct H as (h & H1 & H2 & H3 & _). right. exists h. auto.
  - left. exact H.
Qed.

Lemma well_formed_boot : well_formed boot.
Proof.
  unfold well_formed, scheduled_once, shows_current.
  cbn [boot resetState show set_controlInput set_state state display controlInput
       isRunning frames nextHandle mech x].
  split; [split; [lia | reflexivity]|].
  split; [rewrite Rabs_R0; lra|].
  split; [lra|].
  exists 0. split; [reflexivity | lra].
Qed.

Lemma well_formed_handle :
  forall (e : Event) (d : Driver), well_formed d -> well_formed (handle e d).
Proof.
  intros e d (Hs & Hx & Hu & Hshow).
  pose proof (scheduled_frames d Hs) as Hq.
  pose proof Hs as [Hnh Hsched].
  destruct e; cbn [handle].
  - (* Kp slider *) exact (conj Hs (conj Hx (conj Hu Hshow))).
  - (* Ki slider *) exact (conj Hs (conj Hx (conj Hu Hshow))).
  - (* Kd slider *) exact (conj Hs (conj Hx (conj Hu Hshow))).
  - (* initial angle slider *)
    unfold onTheta0Input; cbv zeta. cbn [isRunning set_initialTheta].
    destruct (isRunning d) eqn:Hr; cbn [negb].
    + exact (conj Hs (conj Hx (conj Hu Hshow))).
    + unfold well_formed, scheduled_once, shows_current.
      cbn [show set_state set_initialTheta state display controlInput isRunning
           frames nextHandle animationId mech x].
      rewrite Hr. split; [split; assumption|].
      split; [exact Hx|]. split; [exact Hu|].
      exists 0. split; [reflexivity | lra].
  - (* start button *)
    unfold onStartClick.
    destruct (isRunning d) eqn:Hr.
    + destruct (cancelAnimationFrame_shell (set_isRunning d false))
        as (C1 & _ & _ & C4 & _ & C6 & _ & C8 & C9).
      pose proof (cancelAnimationFrame_frames (set_isRunning d false) Hq) as Cf.
      unfold well_formed, scheduled_once, shows_current.
      cbn [set_startBtn state display controlInput isRunning frames nextHandle].
      rewrite C1, C4, C6, C8, C9, Cf.
      cbn [set_isRunning state display controlInput isRunning nextHandle].
      split; [split; [exact Hnh | reflexivity]|].
      split; [exact Hx|]. split; [exact Hu | exact Hshow].
    + unfold well_formed, scheduled_once, shows_current.
      cbn [requestAnimationFrame set_startBtn set_isRunning state display
           controlInput isRunning frames nextHandle animationId].
      rewrite Hsched. cbn [app].
      split; [split; [lia|]|].
      * exists (nextHandle d). split; [reflexivity|]. split; [reflexivity | lia].
      * split; [exact Hx|]. split; [exact Hu | exact Hshow].
  - (* reset button *)
    unfold onResetClick.
    set (c := set_startBtn (cancelAnimationFrame (set_isRunning d false)) "Start").
    destruct (cancelAnimationFrame_shell (set_isRunning d false))
      as (_ & _ & _ & C4 & _ & _ & _ & _ & C9).
    pose proof (cancelAnimationFrame_frames (set_isRunning d false) Hq) as Cf.
    assert (Hrun : isRunning c = false) by (unfold c; cbn [set_startBtn isRunning]; exact C4).
    assert (Hfr : frames c = []) by (unfold c; cbn [set_startBtn frames]; exact Cf).
    assert (Hn : nextHandle c = nextHandle d)
      by (unfold c; cbn [set_startBtn nextHandle]; exact C9).
    unfold well_formed, scheduled_once, shows_current, resetState; cbv zeta.
    cbn [show set_controlInput set_state state display controlInput isRunning
         frames nextHandle mech x].
    rewrite Hrun, Hfr, Hn.
    split; [split; [exact Hnh | reflexivity]|].
    split; [rewrite Rabs_R0; lra|]. split; [lra|].
    exists 0. split; [reflexivity | lra].
  - (* frame *)
    unfold onFrame. destruct (frames d) as [|h q] eqn:Hfr.
    + exact (conj Hs (conj Hx (conj Hu Hshow))).
    + destruct (isRunning d) eqn:Hr; [|discriminate Hsched].
      destruct Hsched as (h' & Hh' & Hid & Hrange).
      injection Hh' as -> ->.
      rewrite (proj1 (simulate_running (set_frames d []) Hr)).
      set (d1 := physics (set_frames d [])).
      destruct (physics_shell (set_frames d []))
        as (P1 & P2 & P3 & P4 & P5 & P6 & P7 & P8 & P9).
      fold d1 in P1, P2, P3, P4, P5, P6, P7, P8, P9.
      cbn [set_frames isRunning frames nextHandle animationId] in P1, P2, P3, P4.
      assert (Hrun1 : isRunning d1 = true) by (rewrite P1; exact Hr).
      destruct (finishTick_cases d1 Hrun1) as (F1 & _ & _ & F4 & F5 & Fcase).
      assert (Hu1 : -50 <= controlInput d1 <= 50)
        by (rewrite P9; apply computeControl_range).
      unfold well_formed, scheduled_once, shows_current.
      rewrite F1, F4, F5.
      assert (Hrest : Rabs (x (boundCart (state d1))) <= 2.5 /\
                      -50 <= controlInput d1 <= 50 /\
                      exists u : R,
                        Some (boundCart (state d1), controlInput d1)
                        = Some (boundCart (state d1), u) /\ -50 <= u <= 50).
      { split; [apply boundCart_bounded|]. split; [exact Hu1|].
        exists (controlInput d1). split; [reflexivity | exact Hu1]. }
      destruct Fcase as [(_ & G1 & _ & G3 & _ & G5)|(_ & G1 & _ & G3 & G4 & G5)];
        rewrite G1, G3, G5, P2, P3; (split; [|exact Hrest]).
      * split; [exact Hnh | reflexivity].
      * split; [lia|]. exists (nextHandle d).
        split; [reflexivity|]. split; [rewrite G4, P3; reflexivity | lia].
Qed.

Lemma well_formed_run :
  forall (evs : list Event) (d : Driver), well_formed d -> well_formed (run evs d).
Proof.
  induction evs as [|e evs IH]; intros d Hd.
  - exact Hd.
  - unfold run; cbn [fold_left]. apply IH, well_formed_handle, Hd.
Qed.

(** X8: whatever the user does from page load (any sequence of slider
    inputs, clicks and frames), the loop is scheduled exactly while the
    driver runs: there is one pending frame request, the one
    [animationId] names, when [isRunning] holds and none otherwise, so
    the loop never runs twice in a frame nor once after a pause, a reset
    or a fall. *)
Theorem loop_scheduled_once :
  forall evs : list Event, scheduled_once (run evs boot).
Proof.
  intros evs. apply (well_formed_run evs boot well_formed_boot).
Qed.



Lemma label_agrees_handle :
  forall (e : Event) (d : Driver),
    label_agrees d \/ e = StartClick \/ e = ResetClick ->
    label_agrees (handle e d).
Proof.
  intros e d H. unfold label_agrees in *.
  destruct e; cbn [handle];
    try (destruct H as [H|[H|H]]; [|discriminate H|discriminate H]).
  - exact H.
  - exact H.
  - exact H.
  - unfold onTheta0Input; cbv zeta. cbn [isRunning set_initialTheta].
    destruct (isRunning d) eqn:Hr; cbn [negb show set_state startBtn isRunning
                                         set_initialTheta];
      rewrite ?Hr; exact H.
  - unfold onStartClick. destruct (isRunning d) eqn:Hr.
    + destruct (cancelAnimationFrame_shell (set_isRunning d false))
        as (_ & _ & _ & C4 & _).
      cbn [set_startBtn startBtn isRunning]. rewrite C4. reflexivity.
    + reflexivity.
  - unfold onResetClick, resetState; cbv zeta.
    destruct (cancelAnimationFrame_shell (set_isRunning d false))
      as (_ & _ & _ & C4 & _).
    cbn [show set_controlInput set_state set_startBtn startBtn isRunning].
    rewrite C4. reflexivity.
  - unfold onFrame. destruct (frames d) as [|h q]; [exact H|].
    destruct (isRunning d) eqn:Hr.
    + rewrite (proj1 (simulate_running (set_frames d q) Hr)).
      destruct (physics_shell (set_frames d q)) as (P1 & _ & _ & _ & P5 & _).
      cbn [set_frames isRunning startBtn] in P1, P5.
      assert (Hrun1 : isRunning (physics (set_frames d q)) = true)
        by (rewrite P1; exact Hr).
      destruct (finishTick_cases _ Hrun1)
        as (_ & _ & _ & _ & _ & [(_ & G1 & G2 & _)|(_ & G1 & G2 & _)]);
        rewrite G1, G2; [reflexivity|].
      rewrite P5. exact H.
    + rewrite (simulate_stopped (set_frames d q) Hr).
      cbn [set_frames startBtn isRunning]. rewrite Hr. exact H.
Qed.

Lemma label_agrees_run :
  forall (evs : list Event) (d : Driver),
    label_agrees d -> label_agrees (run evs d).
Proof.
  induction evs as [|e evs IH]; intros d Hd.
  - exact Hd.
  - unfold run; cbn [fold_left]. apply IH, label_agrees_handle. left. exact Hd.
Qed.

(** X11: once either button has been clicked, the start button reads
    "Pause" exactly while the driver runs and "Start" otherwise, through
    every later event, the automatic stop on a fall included; nothing is
    assumed of the page before the click. *)
Theorem start_button_label :
  forall (d : Driver) (evs : list Event),
    label_agrees (run evs (handle StartClick d)) /\
    label_agrees (run evs (handle ResetClick d)).
Proof.
  intros d evs.
  split; apply label_agrees_run, label_agrees_handle; right; [left | right];
    reflexivity.
Qed.

Lemma frames_on_empty_queue :
  forall (n : nat) (d : Driver), frames d = [] -> run (repeat Frame n) d = d.
Proof.
  induction n as [|n IH]; intros d Hd; [reflexivity|].
  cbn [repeat]. unfold run; cbn [fold_left handle].
  unfold onFrame. rewrite Hd. apply IH, Hd.
Qed.

(** X12: pausing a scheduled run keeps the state and the gains, drops the
    pending frame request (frames arriving afterwards do nothing), and a
    resumed run goes on exactly where the paused one stood: pause, start
    and a frame leave the state that the frame alone would have left. *)
Theorem pause_and_resume :
  forall d : Driver,
    scheduled_once d -> isRunning d = true ->
    let p := handle StartClick d in
    isRunning p = false /\ state p = state d /\ gains p = gains d /\
    frames p = [] /\
    (forall n : nat, run (repeat Frame n) p = p) /\
    state (run [StartClick; Frame] p) = state (handle Frame d).
Proof.
  intros d Hs Hrun p.
  pose proof (scheduled_frames d Hs) as Hq.
  destruct Hs as [_ Hsched]. rewrite Hrun in Hsched.
  destruct Hsched as (h & Hfr & _).
  destruct (cancelAnimationFrame_shell (set_isRunning d false))
    as (C1 & C2 & _ & C4 & _).
  pose proof (cancelAnimationFrame_frames (set_isRunning d false) Hq) as Cf.
  assert (Hp : p = set_startBtn (cancelAnimationFrame (set_isRunning d false)) "Start").
  { unfold p; cbn [handle]. unfold onStartClick. rewrite Hrun. reflexivity. }
  assert (Hstop : isRunning p = false) by (rewrite Hp; exact C4).
  assert (Hst : state p = state d) by (rewrite Hp; exact C1).
  assert (Hg : gains p = gains d) by (rewrite Hp; exact C2).
  assert (Hnil : frames p = []) by (rewrite Hp; exact Cf).
  split; [exact Hstop|]. split; [exact Hst|]. split; [exact Hg|].
  split; [exact Hnil|].
  split; [intros n; apply frames_on_empty_queue, Hnil|].
  rewrite (start_then_frame p Hstop), (onFrame_running d h [] Hfr Hrun).
  rewrite finishTick_state, physics_set_frames, !physics_state, Hst, Hg.
  reflexivity.
Qed.

Lemma pause_and_resume_witness :
  let d := handle StartClick boot in
  isRunning d = true /\
  state (run [StartClick; Frame] (handle StartClick d)) = state (handle Frame d).
Proof.
  intros d.
  assert (Hs : scheduled_once d).
  { apply (well_formed_handle StartClick boot well_formed_boot). }
  split; [reflexivity|].
  apply (pause_and_resume d Hs eq_refl).
Defined.

Lemma config_kept_by_handle :
  forall (e : Event) (d : Driver),
    not_a_slider e = true ->
    gains (handle e d) = gains d /\ initialTheta (handle e d) = initialTheta d.
Proof.
  intros e d He. destruct e; try discriminate He; cbn [handle].
  - unfold onStartClick. destruct (isRunning d).
    + destruct (cancelAnimationFrame_shell (set_isRunning d false))
        as (_ & C2 & C3 & _).
      cbn [set_startBtn gains initialTheta]. rewrite C2, C3. split; reflexivity.
    + split; reflexivity.
  - unfold onResetClick, resetState; cbv zeta.
    destruct (cancelAnimationFrame_shell (set_isRunning d false))
      as (_ & C2 & C3 & _).
    cbn [show set_controlInput set_state set_startBtn gains initialTheta].
    rewrite C2, C3. split; reflexivity.
  - unfold onFrame. destruct (frames d) as [|h q]; [split; reflexivity|].
    destruct (isRunning d) eqn:Hr.
    + rewrite (proj1 (simulate_running (set_frames d q) Hr)).
      destruct (physics_shell (set_frames d q)) as (P1 & _ & _ & _ & _ & P6 & P7 & _).
      cbn [set_frames isRunning gains initialTheta] in P1, P6, P7.
      assert (Hrun1 : isRunning (physics (set_frames d q)) = true)
        by (rewrite P1; exact Hr).
      destruct (finishTick_cases _ Hrun1) as (_ & F2 & F3 & _).
      rewrite F2, F3, P6, P7. split; reflexivity.
    + rewrite (simulate_stopped (set_frames d q) Hr). split; reflexivity.
Qed.

(** X13: the configuration belongs to the sliders: clicks and frames,
    in any number and order, leave the gains and the configured initial
    angle as they were, so a reset after them still starts from the
    angle last set. *)
Theorem configuration_kept :
  forall (evs : list Event) (d : Driver),
    forallb not_a_slider evs = true ->
    gains (run evs d) = gains d /\
    initialTheta (run evs d) = initialTheta d /\
    state (handle ResetClick (run evs d))
    = {| mech := {| x := 0; xDot := 0; theta := initialTheta d; thetaDot := 0 |};
         integral := 0; time := 0 |}.
Proof.
  induction evs as [|e evs IH]; intros d Hevs.
  - split; [reflexivity|]. split; [reflexivity|].
    cbn [run fold_left handle]. unfold onResetClick, resetState; cbv zeta.
    destruct (cancelAnimationFrame_shell (set_isRunning d false))
      as (_ & _ & C3 & _).
    cbn [show set_controlInput set_state set_startBtn state initialTheta].
    rewrite C3. reflexivity.
  - cbn [forallb] in Hevs. apply andb_prop in Hevs. destruct Hevs as [He Hevs].
    destruct (config_kept_by_handle e d He) as [Hg Hi].
    destruct (IH (handle e d) Hevs) as (IG & II & IR).
    unfold run in *; cbn [fold_left].
    rewrite IG, II, IR, Hg, Hi. repeat split.
Qed.

Lemma configuration_kept_witness :
  forallb not_a_slider [StartClick; Frame; Frame; StartClick] = true /\
  theta (state (handle ResetClick
                  (run [StartClick; Frame; Frame; StartClick]
                       (handle (Theta0Input 5) boot))))
  = 5 * PI / 180.
Proof.
  split; [reflexivity|].
  destruct (configuration_kept [StartClick; Frame; Frame; StartClick]
                               (handle (Theta0Input 5) boot) eq_refl)
    as (_ & _ & H).
  rewrite H. reflexivity.
Defined.

(** ** What is drawn *)

Lemma pendulum_length_value : PENDULUM_LENGTH = 50.
Proof. unfold PENDULUM_LENGTH, SCALE; simpl. lra. Qed.



(** X16: for a cart on the track ([|x| <= 2.5], as every state of the
    page is) the drawing stays within fixed bounds around the centre of
    the canvas: the cart rectangle within 290 pixels of it, the pivot
    within 250, the centre of the bob within 300, and the centre of the
    bob between the ground line (30 pixels above the bottom) and 130
    pixels above the bottom. *)
Theorem drawing_stays_in_bounds :
  forall (width height : R) (s : State) (u : R),
    Rabs (x s) <= 2.5 ->
    In (FillRect (cartX width s - CART_WIDTH / 2) (cartY height - CART_HEIGHT / 2)
                 CART_WIDTH CART_HEIGHT)
       (render width height s u) /\
    width / 2 - 290 <= cartX width s - CART_WIDTH / 2 /\
    cartX width s - CART_WIDTH / 2 + CART_WIDTH <= width / 2 + 290 /\
    Rabs (pivotX width s - width / 2) <= 250 /\
    Rabs (bobX width s - width / 2) <= 300 /\
    height - 130 <= bobY height s <= height - 30.
Proof.
  intros width height s u Hx.
  assert (Hx' : -2.5 <= x s <= 2.5)
    by (unfold Rabs in Hx; destruct (Rcase_abs (x s)); lra).
  pose proof (SIN_bound (theta s)) as Hs.
  pose proof (COS_bound (theta s)) as Hc.
  split.
  - unfold render. apply in_or_app. left. cbn [In].
    do 16 right. left. reflexivity.
  - unfold bobX, bobY, pivotX, pivotY, cartX, cartY.
    rewrite pendulum_length_value.
    unfold CART_WIDTH, CART_HEIGHT, WHEEL_RADIUS, SCALE.
    repeat split; try apply Rabs_le; lra.
Qed.

Lemma drawing_stays_in_bounds_witness :
  let s := {| mech := {| x := 2.5; xDot := 0; theta := 0; thetaDot := 0 |};
              integral := 0; time := 0 |} in
  Rabs (x s) <= 2.5 /\ Rabs (bobX 600 s - 600 / 2) <= 300.
Proof.
  intros s.
  assert (Hx : Rabs (x s) <= 2.5) by (cbn; rewrite Rabs_pos_eq; lra).
  split; [exact Hx|].
  apply (drawing_stays_in_bounds 600 400 s 0 Hx).
Defined.


